(** * HordeModelName-Finder: the GGUF metadata reader and the name matcher

    A shallow embedding of [find_hordename.py] and of the parts of the Python
    library it runs on ([struct.unpack], [bytes.decode], [re.sub],
    [difflib.SequenceMatcher]), followed by the properties of the program.

    Conventions.
    - A Python [str] is the list of its code points ([N]); [py "..."] writes
      an ASCII literal.
    - A Python [bytes] is a [list byte].
    - A dict keyed by strings is a [gmap]; the catalog, whose iteration order
      decides ties, is an association list in insertion order.
    - Exceptions are values: every fallible operation returns an [outcome].
    - A score is the exact quotient that Python rounds to a double.

    The program comes first, then the notions the properties are stated
    with, then the properties. *)

From Stdlib Require Import NArith ZArith QArith Lia Bool Ascii String.
From Stdlib.Strings Require Import Byte.
From stdpp Require Import gmap list.

Local Open Scope N_scope.

(** ** Strings *)

Abbreviation str := (list N) (only parsing).

Definition py (s : string) : str := map N_of_ascii (list_ascii_of_string s).

Definition str_eqb (s t : str) : bool := bool_decide (s = t).

(** ** Exceptions and the file object *)

Inductive exn :=
| StructError          (* struct.error: wrong buffer size *)
| UnicodeDecodeError   (* bytes.decode('utf-8') on ill-formed input *)
| OverflowError        (* read(n) with n beyond Py_ssize_t *)
| MemoryError          (* read(n) whose buffer cannot be allocated *)
| OSError.             (* open() failed *)

Inductive outcome (A : Type) :=
| Ok (a : A)
| Raise (e : exn).
Arguments Ok {A} a.
Arguments Raise {A} e.

(** The object returned by [open(filename, 'rb')]: the bytes of the file, the
    read position and whether [close()] has been called. *)
Record file := File { content : list byte; pos : nat; closed : bool }.

Definition remaining (f : file) : list byte := drop (pos f) (content f).
Definition at_eof (f : file) : Prop := remaining f = [].

(** Computations that read from [self.file]. *)
Definition M (A : Type) := file -> outcome A * file.

Definition ret {A} (a : A) : M A := fun f => (Ok a, f).
Definition bind {A B} (m : M A) (k : A -> M B) : M B :=
  fun f => match m f with
           | (Ok a, f') => k a f'
           | (Raise e, f') => (Raise e, f')
           end.
Definition lift {A} (o : outcome A) : M A := fun f => (o, f).

Declare Scope reader_scope.
Delimit Scope reader_scope with reader.
Notation "'let*' x := m 'in' k" := (bind m (fun x => k))
  (at level 10, x name, m at level 100, k at level 200) : reader_scope.
Notation "m ;; k" := (bind m (fun _ => k))
  (at level 100, k at level 200, right associativity) : reader_scope.

(** ** struct.unpack *)

Fixpoint le_decode (bs : list byte) : N :=
  match bs with
  | [] => 0
  | b :: r => Byte.to_N b + 256 * le_decode r
  end.

(** [struct.unpack('<Q', bs)[0]] and [struct.unpack('<I', bs)[0]]: the buffer
    must have exactly the size of the format. *)
Definition unpack_Q (bs : list byte) : outcome N :=
  if (length bs =? 8)%nat then Ok (le_decode bs) else Raise StructError.
Definition unpack_I (bs : list byte) : outcome N :=
  if (length bs =? 4)%nat then Ok (le_decode bs) else Raise StructError.

(** ** bytes.decode('utf-8') (strict) *)

Definition is_cont (b : N) : bool := (0x80 <=? b) && (b <=? 0xBF).

Fixpoint utf8_decode (bs : list N) : option str :=
  match bs with
  | [] => Some []
  | b0 :: r0 =>
    if b0 <? 0x80 then option_map (cons b0) (utf8_decode r0)
    else if b0 <? 0xC2 then None
    else if b0 <? 0xE0 then
      match r0 with
      | b1 :: r1 =>
        if is_cont b1
        then option_map (cons ((b0 - 0xC0) * 64 + (b1 - 0x80))) (utf8_decode r1)
        else None
      | _ => None
      end
    else if b0 <? 0xF0 then
      match r0 with
      | b1 :: b2 :: r2 =>
        if is_cont b1 && is_cont b2
           && (negb (b0 =? 0xE0) || (0xA0 <=? b1))     (* no overlong form *)
           && (negb (b0 =? 0xED) || (b1 <=? 0x9F))     (* no surrogate *)
        then option_map
               (cons ((b0 - 0xE0) * 4096 + (b1 - 0x80) * 64 + (b2 - 0x80)))
               (utf8_decode r2)
        else None
      | _ => None
      end
    else if b0 <? 0xF5 then
      match r0 with
      | b1 :: b2 :: b3 :: r3 =>
        if is_cont b1 && is_cont b2 && is_cont b3
           && (negb (b0 =? 0xF0) || (0x90 <=? b1))     (* no overlong form *)
           && (negb (b0 =? 0xF4) || (b1 <=? 0x8F))     (* at most U+10FFFF *)
        then option_map
               (cons ((b0 - 0xF0) * 262144 + (b1 - 0x80) * 4096
                      + (b2 - 0x80) * 64 + (b3 - 0x80)))
               (utf8_decode r3)
        else None
      | _ => None
      end
    else None
  end.

Definition decode (bs : list byte) : outcome str :=
  match utf8_decode (map Byte.to_N bs) with
  | Some s => Ok s
  | None => Raise UnicodeDecodeError
  end.

(** ** class GGUFMetadataReader *)

Definition GGUFValueType_STRING : N := 8.
Definition general_name : str := py "general.name".

Section Reader.

(** Whether the interpreter can allocate a read buffer of [n] bytes.
    [BufferedReader.read(n)] allocates the [n] bytes before it reads, so a
    huge length prefix raises [MemoryError] on a short file; where that
    happens depends on the machine. *)
Variable can_allocate : N -> bool.

(** [self.file.read(n)], [0 <= n]: at most [n] bytes, fewer at the end of
    the file (never an error there). *)
Definition file_read (n : N) : M (list byte) :=
  fun f =>
    if 2 ^ 63 <=? n then (Raise OverflowError, f)
    else if negb (can_allocate n) then (Raise MemoryError, f)
    else
      let bs := take (N.to_nat n) (remaining f) in
      (Ok bs, File (content f) (pos f + length bs) (closed f)).

Local Open Scope reader_scope.

Definition _read_header : M N :=
  file_read 4 ;;                       (* Skip magic *)
  file_read 4 ;;                       (* Skip version *)
  file_read 8 ;;                       (* Skip tensor_count *)
  let* bs := file_read 8 in
  lift (unpack_Q bs).

Definition _read_string : M str :=
  let* bs := file_read 8 in
  let* length := lift (unpack_Q bs) in
  let* payload := file_read length in
  lift (decode payload).

(** The result is a Python value: a string, or [None]. *)
Definition _read_value (value_type : N) : M (option str) :=
  if value_type =? GGUFValueType_STRING
  then let* s := _read_string in ret (Some s)
  else ret None.

(** The [for _ in range(n)] loop of [_read_metadata], [n] iterations left. *)
Fixpoint scan (n : nat) (metadata : gmap str (option str))
  : M (gmap str (option str)) :=
  match n with
  | O => ret metadata
  | S n' =>
    fun f =>
      match _read_string f with
      | (Raise _, f') => scan n' metadata f'            (* except: continue *)
      | (Ok key, f') =>
        (let* bs := file_read 4 in
         let* value_type := lift (unpack_I bs) in
         if value_type =? GGUFValueType_STRING then
           let* value := _read_value GGUFValueType_STRING in
           let metadata' := <[key := value]> metadata in
           if str_eqb key general_name
           then ret metadata'                           (* break *)
           else scan n' metadata'
         else scan n' metadata) f'                      (* continue *)
      end
  end.

Definition _read_metadata : M (gmap str (option str)) :=
  let* metadata_kv_count := _read_header in
  scan (N.to_nat metadata_kv_count) ∅.

Definition close : M unit :=
  fun f => (Ok tt, File (content f) (pos f) true).

(** [open(filename, 'rb')]: the file system answers with the bytes of the
    file, or not at all. *)
Definition open_rb (on_disk : option (list byte)) : outcome file :=
  match on_disk with
  | Some bs => Ok (File bs 0 false)
  | None => Raise OSError
  end.

(** [GGUFMetadataReader(filename)]: the [metadata] attribute of the new
    object or the exception that left [__init__], and the file object that
    [open] returned, as [__init__] leaves it. *)
Definition GGUFMetadataReader (on_disk : option (list byte))
  : outcome (gmap str (option str)) * option file :=
  match open_rb on_disk with
  | Raise e => (Raise e, None)
  | Ok f =>
    match (let* metadata := _read_metadata in close ;; ret metadata) f with
    | (r, f') => (r, Some f')
    end
  end.

End Reader.

(** ** ModelNameMapper._normalize *)

Definition is_upper (c : N) : bool := (65 <=? c) && (c <=? 90).     (* A-Z *)
Definition is_lower (c : N) : bool := (97 <=? c) && (c <=? 122).    (* a-z *)
Definition is_digit (c : N) : bool := (48 <=? c) && (c <=? 57).     (* 0-9 *)

(** [c.lower()] for one character. Exact on ASCII and on the two other code
    points whose lower-case form contains an ASCII letter (U+0130, whose
    lower-case form is [i] followed by U+0307, and U+212A KELVIN SIGN, whose
    lower-case form is [k]). Every other code point stands for its own
    lower-case form, which has no character in [a-z0-9]. *)
Definition lower_char (c : N) : str :=
  if is_upper c then [c + 32]
  else if c =? 0x130 then [105; 0x307]
  else if c =? 0x212A then [107]
  else [c].

Definition lower (text : str) : str := flat_map lower_char text.

(** [re.sub(r'[^a-z0-9]', '', text)] *)
Definition strip_non_alnum (text : str) : str :=
  List.filter (fun c => is_lower c || is_digit c) text.

Definition _normalize (text : str) : str :=
  match text with
  | [] => []
  | _ => strip_non_alnum (lower text)
  end.

(** ** difflib.SequenceMatcher(None, a, b), autojunk at its default *)

Local Close Scope N_scope.
Local Open Scope nat_scope.

(** A triple [Match(a=i, b=j, size=k)]. *)
Record Match := mkMatch { m_a : nat; m_b : nat; m_size : nat }.

(** [for i, elt in enumerate(b): b2j.setdefault(elt, []).append(i)] *)
Fixpoint index_elements (b : str) (i : nat) (b2j : gmap N (list nat))
  : gmap N (list nat) :=
  match b with
  | [] => b2j
  | elt :: b' =>
    index_elements b' (S i) (<[elt := default [] (b2j !! elt) ++ [i]]> b2j)
  end.

(** [__chain_b]: [isjunk] is [None], so nothing is junk; with 200 elements or
    more, those occurring more than [n // 100 + 1] times are dropped. *)
Definition chain_b (b : str) : gmap N (list nat) :=
  let b2j := index_elements b 0 ∅ in
  let n := length b in
  if (200 <=? n)%nat then
    let ntest := (n / 100 + 1)%nat in
    filter (fun kv => (length kv.2 <= ntest)%nat) b2j
  else b2j.

(** [self.bjunk.__contains__]: [bjunk] is the empty set. *)
Definition isbjunk (x : N) : bool := false.

(** [j2len.get(j-1, 0)]; for [j = 0] the key is [-1], never in the dict. *)
Definition j2len_get (j2len : gmap nat nat) (j : nat) : nat :=
  match j with
  | O => 0
  | S j' => default 0 (j2len !! j')
  end.

(** [for j in b2j.get(a[i], nothing)]. [i-k+1] is written [i+1-k]: [k] is at
    most [i+1], and subtraction on [nat] stops at zero. *)
Fixpoint row_loop (i blo bhi : nat) (j2len : gmap nat nat) (js : list nat)
         (newj2len : gmap nat nat) (best : Match) : gmap nat nat * Match :=
  match js with
  | [] => (newj2len, best)
  | j :: js' =>
    if (j <? blo)%nat then row_loop i blo bhi j2len js' newj2len best
    else if (bhi <=? j)%nat then (newj2len, best)
    else
      let k := (j2len_get j2len j + 1)%nat in
      let best' := if (m_size best <? k)%nat
                   then mkMatch (i + 1 - k) (j + 1 - k) k else best in
      row_loop i blo bhi j2len js' (<[j := k]> newj2len) best'
  end.

(** [for i in range(alo, ahi)], the range given as the list of its values. *)
Fixpoint rows (a : str) (b2j : gmap N (list nat)) (blo bhi : nat)
         (range : list nat) (j2len : gmap nat nat) (best : Match) : Match :=
  match range with
  | [] => best
  | i :: range' =>
    let js := match a !! i with
              | Some x => default [] (b2j !! x)
              | None => []
              end in
    let '(newj2len, best') := row_loop i blo bhi j2len js ∅ best in
    rows a b2j blo bhi range' newj2len best'
  end.

(** [a[i] == b[j]], both indices in range. *)
Definition elt_eqb (a : str) (i : nat) (b : str) (j : nat) : bool :=
  match a !! i, b !! j with
  | Some x, Some y => (x =? y)%N
  | _, _ => false
  end.

Definition junk_at (b : str) (j : nat) : bool :=
  match b !! j with
  | Some y => isbjunk y
  | None => false
  end.

(** [while besti > alo and bestj > blo and <junk test on b[bestj-1]> and
    a[besti-1] == b[bestj-1]]; [want_junk] tells which of the two passes. *)
Fixpoint extend_left (a b : str) (alo blo : nat) (want_junk : bool)
         (besti bestj bestsize : nat) {struct besti} : Match :=
  match besti, bestj with
  | S i', S j' =>
    if (alo <? besti)%nat && (blo <? bestj)%nat
       && Bool.eqb (junk_at b j') want_junk && elt_eqb a i' b j'
    then extend_left a b alo blo want_junk i' j' (S bestsize)
    else mkMatch besti bestj bestsize
  | _, _ => mkMatch besti bestj bestsize
  end.

(** [while besti+bestsize < ahi and bestj+bestsize < bhi and <junk test> and
    a[besti+bestsize] == b[bestj+bestsize]]; the loop makes at most
    [ahi - (besti+bestsize)] turns, which is the [fuel] it is called with. *)
Fixpoint extend_right (a b : str) (ahi bhi : nat) (want_junk : bool)
         (fuel besti bestj bestsize : nat) {struct fuel} : Match :=
  match fuel with
  | O => mkMatch besti bestj bestsize
  | S fuel' =>
    if (besti + bestsize <? ahi)%nat && (bestj + bestsize <? bhi)%nat
       && Bool.eqb (junk_at b (bestj + bestsize)) want_junk
       && elt_eqb a (besti + bestsize) b (bestj + bestsize)
    then extend_right a b ahi bhi want_junk fuel' besti bestj (S bestsize)
    else mkMatch besti bestj bestsize
  end.

Definition extend (a b : str) (alo ahi blo bhi : nat) (want_junk : bool)
           (m : Match) : Match :=
  let m' := extend_left a b alo blo want_junk (m_a m) (m_b m) (m_size m) in
  extend_right a b ahi bhi want_junk (ahi - (m_a m' + m_size m'))
               (m_a m') (m_b m') (m_size m').

Definition find_longest_match (a b : str) (b2j : gmap N (list nat))
           (alo ahi blo bhi : nat) : Match :=
  let best := rows a b2j blo bhi (seq alo (ahi - alo)) ∅ (mkMatch alo blo 0) in
  let best := extend a b alo ahi blo bhi false best in
  extend a b alo ahi blo bhi true best.

(** The [while queue:] loop of [get_matching_blocks]. [queue] is kept with
    its last element first: [queue.pop()] takes the head and
    [queue.append(x)] conses. Returns the blocks found and what is left of
    the queue when [fuel] turns have been made. *)
Fixpoint blocks_loop (fuel : nat) (a b : str) (b2j : gmap N (list nat))
         (queue : list (nat * nat * nat * nat)) (matching_blocks : list Match)
  : list Match * list (nat * nat * nat * nat) :=
  match fuel with
  | O => (matching_blocks, queue)
  | S fuel' =>
    match queue with
    | [] => (matching_blocks, [])
    | (alo, ahi, blo, bhi) :: queue =>
      let x := find_longest_match a b b2j alo ahi blo bhi in
      let '(i, j, k) := (m_a x, m_b x, m_size x) in
      if (k =? 0)%nat then blocks_loop fuel' a b b2j queue matching_blocks
      else
        let queue := if (alo <? i)%nat && (blo <? j)%nat
                     then (alo, i, blo, j) :: queue else queue in
        let queue := if (i + k <? ahi)%nat && (j + k <? bhi)%nat
                     then (i + k, ahi, j + k, bhi) :: queue else queue in
        blocks_loop fuel' a b b2j queue (matching_blocks ++ [x])
    end
  end.

(** Tuples compare lexicographically. *)
Definition Match_leb (x y : Match) : bool :=
  (m_a x <? m_a y)%nat
  || ((m_a x =? m_a y)%nat
      && ((m_b x <? m_b y)%nat
          || ((m_b x =? m_b y)%nat && (m_size x <=? m_size y)%nat))).

Fixpoint insert_sorted (x : Match) (l : list Match) : list Match :=
  match l with
  | [] => [x]
  | y :: l' => if Match_leb x y then x :: l else y :: insert_sorted x l'
  end.

(** [matching_blocks.sort()] *)
Definition sort_blocks (l : list Match) : list Match :=
  foldr insert_sorted [] l.

(** The loop that collapses adjacent blocks, [(i1, j1, k1)] being the block
    under construction. *)
Fixpoint collapse (blocks : list Match) (i1 j1 k1 : nat)
         (non_adjacent : list Match) : list Match :=
  match blocks with
  | [] =>
    if (k1 =? 0)%nat then non_adjacent
    else non_adjacent ++ [mkMatch i1 j1 k1]
  | x :: blocks' =>
    if (i1 + k1 =? m_a x)%nat && (j1 + k1 =? m_b x)%nat
    then collapse blocks' i1 j1 (k1 + m_size x) non_adjacent
    else collapse blocks' (m_a x) (m_b x) (m_size x)
           (if (k1 =? 0)%nat then non_adjacent
            else non_adjacent ++ [mkMatch i1 j1 k1])
  end.

(** One pop shortens the queue or replaces a range by two whose lengths sum
    to less, so [2 * len(a) + 1] turns empty it ([blocks_loop_done]). *)
Definition raw_blocks (a b : str) : list Match :=
  fst (blocks_loop (2 * length a + 1) a b (chain_b b)
                   [(0, length a, 0, length b)]%nat []).

Definition get_matching_blocks (a b : str) : list Match :=
  collapse (sort_blocks (raw_blocks a b)) 0 0 0 []
  ++ [mkMatch (length a) (length b) 0].

(** Scores. [2.0 * matches / length] is a double in Python; here it is the
    exact quotient. The double is the nearest one to the quotient, so for
    strings of fewer than 2^26 characters in all, the comparisons the program
    makes on scores ([>], [max] with [0.7], [>= 0.5]) have the outcome they
    have on the exact values. *)
Definition _calculate_ratio (matches length : nat) : Q :=
  match length with
  | O => 1%Q
  | _ => Z.of_nat (2 * matches) # Pos.of_nat length
  end.

(** [sum(triple[-1] for triple in blocks)] *)
Definition sum_sizes (blocks : list Match) : nat :=
  foldr Nat.add 0 (map m_size blocks).

Definition ratio (a b : str) : Q :=
  let matches := sum_sizes (get_matching_blocks a b) in
  _calculate_ratio matches (length a + length b).

(** ** ModelNameMapper._get_similarity *)

Definition _get_similarity (str1 str2 : str) : Q :=
  match str1, str2 with
  | [], _ | _, [] => 0%Q
  | _, _ => ratio str1 str2
  end.

(** ** re.sub for the two patterns of the fallback identifier *)

Local Close Scope nat_scope.
Local Open Scope N_scope.

(** The regular expressions the program uses: literals, character classes,
    sequence, a greedy optional group, a greedy [+] on a character class and
    the anchor [$]. *)
Inductive regex :=
| Lit (c : N)
| Class (p : N -> bool)
| Cat (r1 r2 : regex)
| Opt (r : regex)
| Plus (p : N -> bool)
| EndOfString.

(** [p+] after its first character: takes all the characters it can and
    gives them back one at a time until the rest of the pattern, [k],
    matches. *)
Fixpoint plus_more (p : N -> bool) (s : str) (k : str -> option str)
  : option str :=
  match s with
  | x :: s' =>
    if p x then
      match plus_more p s' k with
      | Some rest => Some rest
      | None => k s
      end
    else k s
  | [] => k s
  end.

(** The backtracking matcher: [rmatch r s k] matches [r] at the head of [s]
    and hands what follows to [k]; the answer is the input left after the
    whole match. [$] matches at the end of the string and before a newline
    that ends the string. *)
Fixpoint rmatch (r : regex) (s : str) (k : str -> option str) : option str :=
  match r with
  | Lit c =>
    match s with
    | x :: s' => if x =? c then k s' else None
    | [] => None
    end
  | Class p =>
    match s with
    | x :: s' => if p x then k s' else None
    | [] => None
    end
  | Cat r1 r2 => rmatch r1 s (fun s' => rmatch r2 s' k)
  | Opt r' =>
    match rmatch r' s k with
    | Some rest => Some rest
    | None => k s
    end
  | Plus p =>
    match s with
    | x :: s' => if p x then plus_more p s' k else None
    | [] => None
    end
  | EndOfString =>
    match s with
    | [] => k s
    | [10] => k s
    | _ => None
    end
  end.

(** [re.sub(r, '', s)] for a pattern that matches no empty string: the
    leftmost match is deleted and the search goes on behind it. [skip] counts
    the characters of the current match still to delete. *)
Fixpoint sub_scan (r : regex) (s : str) (skip : nat) : str :=
  match s with
  | [] => []
  | c :: s' =>
    match skip with
    | S n => sub_scan r s' n
    | O =>
      match rmatch r s Some with
      | Some rest => sub_scan r s' (length s' - length rest)
      | None => c :: sub_scan r s' 0
      end
    end
  end.

Definition re_sub_delete (r : regex) (s : str) : str := sub_scan r s 0.

(** [os.path.basename] of [posixpath]: what follows the last [/]. *)
Fixpoint basename_from (p seg : str) : str :=
  match p with
  | [] => seg
  | c :: p' => if c =? 47 then basename_from p' p' else basename_from p' seg
  end.
Definition basename (p : str) : str := basename_from p p.

Section Mapper.

Variable can_allocate : N -> bool.

(** Which code points above ASCII the [\d] of [re] takes for decimal
    digits (the category Nd of the interpreter's Unicode tables). *)
Variable unicode_Nd : N -> bool.

Definition re_digit (c : N) : bool :=
  if c <? 128 then is_digit c else unicode_Nd c.

(** [r'\.gguf$'] *)
Definition gguf_extension : regex :=
  Cat (Lit 46) (Cat (Lit 103) (Cat (Lit 103) (Cat (Lit 117) (Cat (Lit 102)
      EndOfString)))).

(** [r'[-_]?Q\d+(?:_[A-Z_]+)?$'] *)
Definition quant_suffix : regex :=
  Cat (Opt (Class (fun c => (c =? 45) || (c =? 95))))
 (Cat (Lit 81)
 (Cat (Plus re_digit)
 (Cat (Opt (Cat (Lit 95) (Plus (fun c => is_upper c || (c =? 95)))))
      EndOfString))).

Definition fallback_identifier (gguf_path : str) : str :=
  let basename := basename gguf_path in
  let basename := re_sub_delete gguf_extension basename in
  re_sub_delete quant_suffix basename.

(** [x in y] on strings. *)
Fixpoint starts_with (x y : str) : bool :=
  match x, y with
  | [], _ => true
  | c :: x', d :: y' => (c =? d) && starts_with x' y'
  | _ :: _, [] => false
  end.
Fixpoint str_in (x y : str) : bool :=
  starts_with x y
  || match y with
     | [] => false
     | _ :: y' => str_in x y'
     end.

(** A record of the catalog: [model_data.get("model_name", "")] is the
    field, or the empty string when the record has none. *)
Record model_data := ModelData { model_name : option str }.

Definition Qltb (x y : Q) : bool := negb (Qle_bool y x).

(** [max(similarity, 0.7)] *)
Definition max_with (similarity floor : Q) : Q :=
  if Qltb similarity floor then floor else similarity.

(** The body of [for norm_id in normalized_identifiers]. *)
Definition score_pair (model_short_name norm_id : str)
           (best : option str * Q) : option str * Q :=
  let norm_name := _normalize model_short_name in
  match norm_name with
  | [] => best                                             (* continue *)
  | _ =>
    let similarity := _get_similarity norm_id norm_name in
    let similarity :=
        if str_in norm_id norm_name || str_in norm_name norm_id
        then max_with similarity (7 # 10) else similarity in
    if Qltb (snd best) similarity
    then (Some model_short_name, similarity)
    else best
  end.

(** The two nested loops over the catalog and the identifiers. *)
Definition select (horde_models : list (str * model_data))
           (normalized_identifiers : list str) : option str * Q :=
  fold_left
    (fun best entry =>
       let model_short_name := default [] (model_name (snd entry)) in
       fold_left (fun best norm_id => score_pair model_short_name norm_id best)
                 normalized_identifiers best)
    horde_models (None, 0%Q).

(** [if best_score >= 0.5: return best_match] and [return ""]. The value
    returned is a Python value: a string, or [None] (the initial
    [best_match]). *)
Definition best_display_name (horde_models : list (str * model_data))
           (normalized_identifiers : list str) : option str :=
  let '(best_match, best_score) :=
      select horde_models normalized_identifiers in
  if Qle_bool (1 # 2) best_score then best_match else Some [].

(** [identifiers] holds Python values: strings, or [None]. *)
Definition truthy (id : option str) : bool :=
  match id with
  | Some (_ :: _) => true
  | _ => false
  end.

(** The [try] block of [get_model_name]. *)
Definition get_model_name_body (gguf_path : str) (on_disk : option (list byte))
           (horde_models : list (str * model_data)) : outcome (option str) :=
  match fst (GGUFMetadataReader can_allocate on_disk) with
  | Raise e => Raise e
  | Ok metadata =>
    let identifiers :=
        match metadata !! general_name with
        | Some value => [value]
        | None => []
        end in
    let identifiers :=
        if (length identifiers =? 0)%nat
        then identifiers ++ [Some (fallback_identifier gguf_path)]
        else identifiers in
    let normalized_identifiers :=
        map (fun id => _normalize (default [] id))
            (List.filter truthy identifiers) in
    Ok (best_display_name horde_models normalized_identifiers)
  end.

(** [except Exception: return ""]. Every exception the body can raise
    derives from [Exception]. *)
Definition get_model_name (gguf_path : str) (on_disk : option (list byte))
           (horde_models : list (str * model_data)) : outcome (option str) :=
  match get_model_name_body gguf_path on_disk horde_models with
  | Ok name => Ok name
  | Raise _ => Ok (Some [])
  end.

End Mapper.

(** ** main *)

(** How a run of [main] ends. Standard output is taken to be an open text
    stream; [out] is the text it has received. *)
Inductive main_outcome :=
| Printed (out : str)                (* [print] returned *)
| MainIndexError                     (* [sys.argv] is too short *)
| MainLoadError                      (* [ModelNameMapper(...)] raised *)
| MainRaised (e : exn)               (* an exception left [get_model_name] *)
| MainUnicodeEncodeError (out : str).     (* [print] raised, [out] written *)

(** [str(x)] for the value handed to [print]. *)
Definition py_str_of (value : option str) : str :=
  match value with
  | Some s => s
  | None => py "None"
  end.

Section Main.

Variables can_allocate unicode_Nd : N -> bool.

(** What [open(path, 'rb')] finds under a path. *)
Variable files : str -> option (list byte).

(** [ModelNameMapper(path)]: the catalog that [json.load] builds from the
    file, or nothing when [open] or [json.load] raises. *)
Variable load_catalog : str -> option (list (str * model_data)).

(** Whether the codec of standard output, with the error handler of the
    stream, encodes a text. It depends on the locale: UTF-8 in its strict
    mode refuses a lone surrogate, which [json.load] accepts in a name;
    ASCII refuses every code point from 128 on. *)
Variable stdout_encodes : str -> bool.

(** [print(value)]: [sys.stdout.write(str(value))] and then
    [sys.stdout.write("\n")]. A [write] encodes its whole argument before the
    stream receives any of it, and raises if the codec refuses. *)
Definition print (value : option str) : main_outcome :=
  let text := py_str_of value in
  if negb (stdout_encodes text) then MainUnicodeEncodeError []
  else if negb (stdout_encodes [10]) then MainUnicodeEncodeError text
  else Printed (text ++ [10]).

Definition main (argv : list str) : main_outcome :=
  match argv with
  | _ :: gguf_path :: horde_models_path :: _ =>
    match load_catalog horde_models_path with
    | None => MainLoadError
    | Some horde_models =>
      match get_model_name can_allocate unicode_Nd gguf_path
                           (files gguf_path) horde_models with
      | Ok model_name => print model_name
      | Raise e => MainRaised e
      end
    end
  | _ => MainIndexError
  end.

End Main.

(** ** Building inputs *)

Definition bytes_of (s : string) : list byte := list_byte_of_string s.

(** The [width] low bytes of [n], least significant first. *)
Fixpoint le_bytes (width : nat) (n : N) : list byte :=
  match width with
  | O => []
  | S w =>
    match Byte.of_N (n mod 256) with
    | Some b => b :: le_bytes w (n / 256)
    | None => []
    end
  end.

(** A header: magic, version 3, no tensors, [count] metadata entries. *)
Definition gguf_header (count : N) : list byte :=
  bytes_of "GGUF" ++ le_bytes 4 3 ++ le_bytes 8 0 ++ le_bytes 8 count.

(** A metadata entry with a string value. *)
Definition string_entry (key value : string) : list byte :=
  le_bytes 8 (N.of_nat (String.length key)) ++ bytes_of key
  ++ le_bytes 4 8
  ++ le_bytes 8 (N.of_nat (String.length value)) ++ bytes_of value.

Definition enough_memory (n : N) : bool := n <? 2 ^ 32.
Definition ascii_digits_only (c : N) : bool := false.

(** A standard output that encodes to UTF-8, strictly: every code point up
    to U+10FFFF but the surrogates. *)
Definition utf8_stdout (text : str) : bool :=
  forallb (fun c => (c <? 0xD800) || ((0xDFFF <? c) && (c <? 0x110000))) text.

(** * The vocabulary of the properties *)

(** ** The reader *)

(** [scanned k f md f' md']: [k] turns of the loop lead from the file state
    [f] and the mapping [md] to [f'] and [md'], the loop still running
    (no [break], no exception past it). *)
Inductive scanned (can_allocate : N -> bool)
  : nat -> file -> gmap str (option str)
    -> file -> gmap str (option str) -> Prop :=
| scanned_none f md : scanned can_allocate 0 f md f md
| scanned_bad_key k f md e f1 f' md' :
    _read_string can_allocate f = (Raise e, f1) ->
    scanned can_allocate k f1 md f' md' ->
    scanned can_allocate (S k) f md f' md'
| scanned_string k f md key f1 bs f2 value f3 f' md' :
    _read_string can_allocate f = (Ok key, f1) ->
    file_read can_allocate 4 f1 = (Ok bs, f2) ->
    unpack_I bs = Ok GGUFValueType_STRING ->
    _read_value can_allocate GGUFValueType_STRING f2 = (Ok value, f3) ->
    key <> general_name ->
    scanned can_allocate k f3 (<[key := value]> md) f' md' ->
    scanned can_allocate (S k) f md f' md'
| scanned_other k f md key f1 bs f2 value_type f' md' :
    _read_string can_allocate f = (Ok key, f1) ->
    file_read can_allocate 4 f1 = (Ok bs, f2) ->
    unpack_I bs = Ok value_type ->
    value_type <> GGUFValueType_STRING ->
    scanned can_allocate k f2 md f' md' ->
    scanned can_allocate (S k) f md f' md'.

Definition keeps_closed {A} (m : M A) : Prop :=
  forall f r f', m f = (r, f') -> closed f' = closed f.

(** ** Selection *)

(** The score of one pair after the containment boost. *)
Definition boosted_score (norm_id norm_name : str) : Q :=
  let similarity := _get_similarity norm_id norm_name in
  if str_in norm_id norm_name || str_in norm_name norm_id
  then max_with similarity (7 # 10) else similarity.

(** The pairs the two loops score, in the order they score them: catalog
    entries outside, identifiers inside; entries whose display name has an
    empty normal form are passed over. *)
Definition scored_pairs (horde_models : list (str * model_data))
           (normalized_identifiers : list str) : list (str * Q) :=
  flat_map
    (fun entry =>
       let model_short_name := default [] (model_name (snd entry)) in
       match _normalize model_short_name with
       | [] => []
       | norm_name =>
         map (fun norm_id => (model_short_name, boosted_score norm_id norm_name))
             normalized_identifiers
       end)
    horde_models.

(** [if similarity > best_score: best_score, best_match = ...] *)
Definition keep_best (best : option str * Q) (p : str * Q) : option str * Q :=
  if Qltb (snd best) (snd p) then (Some (fst p), snd p) else best.

(** ** The sequence matcher *)

Local Close Scope N_scope.
Local Open Scope nat_scope.

(** The indices of [x] in [b], counted from [i], in increasing order. *)
Fixpoint positions (x : N) (b : str) (i : nat) : list nat :=
  match b with
  | [] => []
  | y :: b' =>
    if (y =? x)%N then i :: positions x b' (S i) else positions x b' (S i)
  end.

(** [b2j.get(x, nothing)] *)
Definition b2j_get (b2j : gmap N (list nat)) (x : N) : list nat :=
  default [] (b2j !! x).

(** Strictly increasing lists of indices. *)
Inductive increasing : list nat -> Prop :=
| increasing_nil : increasing []
| increasing_cons j js :
    Forall (fun j' => j < j') js -> increasing js -> increasing (j :: js).

(** What the queue still has to look at. *)
Definition queue_measure (queue : list (nat * nat * nat * nat)) : nat :=
  foldr (fun '(alo, ahi, _, _) m => 2 * (ahi - alo) + 1 + m) 0 queue.

(** The lengths of the ranges of [a], and of [b], in the queue. *)
Definition span_a (queue : list (nat * nat * nat * nat)) : nat :=
  foldr (fun '(alo, ahi, _, _) m => ahi - alo + m) 0 queue.
Definition span_b (queue : list (nat * nat * nat * nat)) : nat :=
  foldr (fun '(_, _, blo, bhi) m => bhi - blo + m) 0 queue.

Definition disjoint_strings (a b : str) : Prop := forall x, x ∈ a -> x ∉ b.

(** The candidates of row [i]: [b2j.get(a[i], nothing)]. *)
Definition candidates (s : str) (i : nat) : list nat :=
  match s !! i with
  | Some x => default [] (chain_b s !! x)
  | None => []
  end.

(** [run i j]: the length of the longest run of matching, non-popular
    elements that ends with [a[i]] and [b[j]], which is what [j2len] holds
    for row [i]. *)
Fixpoint run (s : str) (i j : nat) {struct i} : nat :=
  if bool_decide (j ∈ candidates s i)
  then S (match i, j with
          | S i', S j' => run s i' j'
          | _, _ => 0
          end)
  else 0.

Definition row_above (s : str) (i j : nat) : nat :=
  match i with
  | O => 0
  | S i' => run s i' j
  end.

(** The best block so far lies on the diagonal, inside the string, and is at
    least as long as every run of the rows above [i] and of the candidates
    [done_] of row [i]. *)
Definition diagonal_best (s : str) (i : nat) (done_ : list nat) (best : Match)
  : Prop :=
  m_a best = m_b best
  /\ m_a best + m_size best <= length s
  /\ (forall i' j', i' < i -> run s i' j' <= m_size best)
  /\ (forall j', j' ∈ done_ -> run s i j' <= m_size best).

Local Close Scope nat_scope.
Local Open Scope N_scope.

(** ** Normal forms, the read position, the entries that count *)

Definition alnum (c : N) : bool := is_lower c || is_digit c.

(** An ASCII letter in upper case. *)
Definition ascii_upper (c : N) : N := if is_lower c then c - 32 else c.

(** The bytes of the file are never changed and the position never moves
    back, nor past the end of the file. *)
Definition forward (f f' : file) : Prop :=
  content f' = content f
  /\ (pos f <= pos f')%nat
  /\ ((pos f <= length (content f))%nat -> (pos f' <= length (content f))%nat).

Definition moves_forward {A} (m : M A) : Prop :=
  forall f r f', m f = (r, f') -> forward f f'.

(** Whether an entry of the catalog takes part in the scoring. *)
Definition has_normal_form (entry : str * model_data) : bool :=
  match _normalize (default [] (model_name (snd entry))) with
  | [] => false
  | _ => true
  end.

(** ** Catalogs *)

Definition tide_catalog : list (str * model_data) :=
  [(py "a", ModelData (Some (py "Tide")));
   (py "b", ModelData (Some (py "TIDE")));
   (py "c", ModelData (Some (py "xyz")));
   (py "d", ModelData None)].

Definition mistral_catalog : list (str * model_data) :=
  [(py "id1", ModelData (Some (py "Mistral 7B Instruct")))].

(** ** Files *)

(** Two string entries, the second of which is [general.name], and four
    bytes more. *)
Definition named_blob : list byte :=
  gguf_header 2
  ++ string_entry "general.architecture" "llama"
  ++ string_entry "general.name" "Mistral-7B-Instruct"
  ++ bytes_of "tail".

(** One entry whose value is a 32-bit integer, then a string entry. *)
Definition mixed_blob : list byte :=
  gguf_header 2
  ++ (le_bytes 8 1 ++ bytes_of "n" ++ le_bytes 4 4 ++ le_bytes 4 7)
  ++ string_entry "k" "v".

(** * Properties *)

(** ** The reader *)

Section ReaderFacts.

Variable can_allocate : N -> bool.

Local Abbreviation scanned := (scanned can_allocate).

Lemma file_read_ok (n : N) (f : file) :
  n < 2 ^ 63 -> can_allocate n = true ->
  file_read can_allocate n f
  = (Ok (take (N.to_nat n) (remaining f)),
     File (content f)
          (pos f + Nat.min (N.to_nat n) (length (content f) - pos f))
          (closed f)).
Proof.
  intros Hn Hc. unfold file_read.
  destruct (N.leb_spec (2 ^ 63) n) as [Hle|_]; [lia|].
  rewrite Hc. cbn [negb]. unfold remaining.
  by rewrite length_take, length_drop.
Qed.

(** At the end of the file a read returns no byte, or raises, and leaves
    the file object as it is. *)
Lemma file_read_at_eof (n : N) (f : file) :
  at_eof f ->
  file_read can_allocate n f = (Ok [], f)
  \/ exists e, file_read can_allocate n f = (Raise e, f).
Proof.
  intros Heof. unfold file_read.
  destruct (2 ^ 63 <=? n); [right; eauto|].
  destruct (can_allocate n); cbn [negb]; [|right; eauto].
  left. red in Heof. rewrite Heof, take_nil. cbn [length].
  destruct f as [c p cl]. cbn. by rewrite Nat.add_0_r.
Qed.

Lemma read_string_at_eof (f : file) :
  at_eof f -> exists e, _read_string can_allocate f = (Raise e, f).
Proof.
  intros Heof. unfold _read_string, bind.
  destruct (file_read_at_eof 8 f Heof) as [->|[e ->]]; [|eauto].
  cbn. eauto.
Qed.

(** Once the file is exhausted every remaining turn of the loop fails in
    its key read and is skipped. *)
Lemma scan_at_eof (n : nat) (metadata : gmap str (option str)) (f : file) :
  at_eof f -> scan can_allocate n metadata f = (Ok metadata, f).
Proof.
  intros Heof. induction n as [|n IH]; [done|].
  cbn [scan]. destruct (read_string_at_eof f Heof) as [e ->]. exact IH.
Qed.

Lemma scanned_scan k f md f' md' :
  scanned k f md f' md' ->
  forall n, scan can_allocate (k + n) md f = scan can_allocate n md' f'.
Proof.
  induction 1 as [| k f md e f1 f' md' Hkey _ IH
                  | k f md key f1 bs f2 value f3 f' md' Hkey Hrd Htag Hval Hne _ IH
                  | k f md key f1 bs f2 vt f' md' Hkey Hrd Htag Hne _ IH];
    intros n; [done| | |].
  - cbn [Nat.add scan]. rewrite Hkey. apply IH.
  - cbn [Nat.add scan]. rewrite Hkey. unfold bind at 1. rewrite Hrd.
    unfold bind at 1, lift at 1. rewrite Htag.
    rewrite N.eqb_refl. unfold bind at 1. rewrite Hval.
    unfold str_eqb. rewrite bool_decide_eq_false_2 by done. apply IH.
  - cbn [Nat.add scan]. rewrite Hkey. unfold bind at 1. rewrite Hrd.
    unfold bind at 1, lift at 1. rewrite Htag.
    apply N.eqb_neq in Hne. rewrite Hne. apply IH.
Qed.

(** A key read that raises with the file exhausted ends the scan: what was
    accumulated is returned, not an exception. *)
Lemma scan_key_error_at_eof n md f e f' :
  _read_string can_allocate f = (Raise e, f') -> at_eof f' ->
  scan can_allocate (S n) md f = (Ok md, f').
Proof.
  intros Hkey Heof. cbn [scan]. rewrite Hkey. by apply scan_at_eof.
Qed.

(** Fewer than eight bytes left: the length prefix of the key cannot be
    unpacked, and the read has consumed what was left. *)
Lemma read_string_short_prefix (f : file) :
  can_allocate 8 = true ->
  (length (remaining f) < 8)%nat ->
  exists f', _read_string can_allocate f = (Raise StructError, f')
             /\ at_eof f'.
Proof.
  intros Hc Hlen. unfold _read_string, bind.
  rewrite file_read_ok by (done || lia).
  unfold lift, unpack_Q.
  rewrite length_take.
  destruct (Nat.eqb_spec (N.to_nat 8 `min` length (remaining f)) 8) as [E|_];
    [lia|].
  eexists; split; [done|].
  unfold at_eof, remaining in *. cbn [pos content].
  rewrite length_drop in Hlen. apply drop_ge. lia.
Qed.

(** A key, or a value, whose payload is cut short by the end of the file:
    [read] returns the bytes that are left and raises nothing; whether the
    read of the string fails is up to [decode]. *)
Lemma read_string_short_payload (f : file) (prefix payload : list byte) :
  remaining f = prefix ++ payload ->
  length prefix = 8%nat ->
  N.of_nat (length payload) <= le_decode prefix ->
  le_decode prefix < 2 ^ 63 ->
  can_allocate 8 = true ->
  can_allocate (le_decode prefix) = true ->
  _read_string can_allocate f
  = (decode payload,
     File (content f) (pos f + 8 + length payload) (closed f))
  /\ at_eof (File (content f) (pos f + 8 + length payload) (closed f)).
Proof.
  intros Hrem Hpre Hlen Hsmall H8 Hpay.
  assert ((length (content f) - pos f)%nat = (8 + length payload)%nat)
    as Hleft.
  { unfold remaining in Hrem. apply (f_equal length) in Hrem.
    rewrite length_drop, !length_app in Hrem. lia. }
  split.
  - unfold _read_string, bind.
    rewrite file_read_ok by (done || lia).
    change (N.to_nat 8) with 8%nat. rewrite Hrem.
    rewrite take_app_length' by done.
    unfold lift at 1, unpack_Q. rewrite Hpre. cbn [Nat.eqb].
    rewrite file_read_ok by done.
    cbn [content pos closed]. unfold remaining. cbn [content pos].
    rewrite Hleft, Nat.min_l by lia.
    fold (remaining f). rewrite <- drop_drop. fold (remaining f). rewrite Hrem.
    rewrite drop_app_length' by done.
    rewrite take_ge by lia. unfold lift. f_equal. f_equal. lia.
  - unfold at_eof, remaining. cbn [content pos]. apply drop_ge. lia.
Qed.

(** What [_read_header] does on a file just opened. *)
Lemma read_header_spec (blob : list byte) (c : bool) :
  can_allocate 4 = true -> can_allocate 8 = true ->
  _read_header can_allocate (File blob 0 c)
  = (unpack_Q (take 8 (drop 16 blob)),
     File blob (Nat.min 24 (length blob)) c).
Proof.
  intros H4 H8. unfold _read_header, bind.
  do 4 (rewrite file_read_ok by (done || lia); cbv beta iota;
        cbn [content pos closed]).
  unfold lift, remaining. cbn [content pos closed].
  change (N.to_nat 8) with 8%nat. change (N.to_nat 4) with 4%nat.
  f_equal.
  - f_equal.
    destruct (Nat.le_gt_cases 16 (length blob)) as [Hge|Hlt].
    + f_equal. f_equal. lia.
    + rewrite !drop_ge; [done|lia|lia].
  - f_equal. lia.
Qed.

End ReaderFacts.

(** *** Reading never touches the [closed] flag *)

Lemma keeps_closed_ret {A} (a : A) : keeps_closed (ret a).
Proof. intros f r f' [= _ <-]. done. Qed.

Lemma keeps_closed_lift {A} (o : outcome A) : keeps_closed (lift o).
Proof. intros f r f' [= _ <-]. done. Qed.

Lemma keeps_closed_bind {A B} (m : M A) (k : A -> M B) :
  keeps_closed m -> (forall a, keeps_closed (k a)) -> keeps_closed (bind m k).
Proof.
  intros Hm Hk f r f'. unfold bind.
  destruct (m f) as [[a|e] f1] eqn:E; intros H.
  - rewrite (Hk a _ _ _ H). eapply Hm, E.
  - injection H as _ <-. eapply Hm, E.
Qed.

Lemma keeps_closed_file_read can_allocate n :
  keeps_closed (file_read can_allocate n).
Proof.
  intros f r f'. unfold file_read.
  destruct (2 ^ 63 <=? n); [by intros [= _ <-]|].
  destruct (can_allocate n); cbn [negb]; by intros [= _ <-].
Qed.

Create HintDb keeps discriminated.
#[local] Hint Resolve keeps_closed_ret keeps_closed_lift keeps_closed_file_read
  : keeps.
#[local] Hint Extern 2 (keeps_closed (bind _ _)) =>
  apply keeps_closed_bind; [|intros ?] : keeps.

Lemma keeps_closed_read_header can_allocate :
  keeps_closed (_read_header can_allocate).
Proof. unfold _read_header. auto 10 with keeps. Qed.

Lemma keeps_closed_read_string can_allocate :
  keeps_closed (_read_string can_allocate).
Proof. unfold _read_string. auto 10 with keeps. Qed.

Lemma keeps_closed_read_value can_allocate value_type :
  keeps_closed (_read_value can_allocate value_type).
Proof.
  unfold _read_value. destruct (value_type =? _); [|auto with keeps].
  apply keeps_closed_bind; [apply keeps_closed_read_string|auto with keeps].
Qed.

Lemma keeps_closed_scan can_allocate n metadata :
  keeps_closed (scan can_allocate n metadata).
Proof.
  revert metadata. induction n as [|n IH]; intros metadata;
    [apply keeps_closed_ret|].
  intros f r f'. cbn [scan].
  destruct (_read_string can_allocate f) as [[key|e] f1] eqn:Ekey.
  - intros H. rewrite <- (keeps_closed_read_string _ _ _ _ Ekey).
    revert H. generalize f1 r f'.
    change (keeps_closed
      (bind (file_read can_allocate 4) (fun bs =>
       bind (lift (unpack_I bs)) (fun value_type =>
       if value_type =? GGUFValueType_STRING
       then bind (_read_value can_allocate GGUFValueType_STRING) (fun value =>
              if str_eqb key general_name
              then ret (<[key:=value]> metadata)
              else scan can_allocate n (<[key:=value]> metadata))
       else scan can_allocate n metadata)))).
    apply keeps_closed_bind; [auto with keeps|intros bs].
    apply keeps_closed_bind; [auto with keeps|intros vt].
    destruct (vt =? _); [|apply IH].
    apply keeps_closed_bind; [apply keeps_closed_read_value|intros value].
    destruct (str_eqb _ _); [apply keeps_closed_ret|apply IH].
  - intros H. rewrite (IH _ _ _ _ H).
    apply (keeps_closed_read_string _ _ _ _ Ekey).
Qed.

Lemma keeps_closed_read_metadata can_allocate :
  keeps_closed (_read_metadata can_allocate).
Proof.
  unfold _read_metadata. apply keeps_closed_bind;
    [apply keeps_closed_read_header|intros; apply keeps_closed_scan].
Qed.

(** [__init__] reaches [self.file.close()] exactly when [_read_metadata]
    returns. *)
Lemma init_closed_iff_returned can_allocate on_disk r f :
  GGUFMetadataReader can_allocate on_disk = (r, Some f) ->
  closed f = match r with Ok _ => true | Raise _ => false end.
Proof.
  unfold GGUFMetadataReader, open_rb. destruct on_disk as [bs|]; [|done].
  unfold bind.
  destruct (_read_metadata can_allocate (File bs 0 false))
    as [[md|e] f1] eqn:E.
  - cbn. by intros [= <- <-].
  - intros [= <- <-]. apply (keeps_closed_read_metadata _ _ _ _ E).
Qed.

(** ** The claims about the reader *)

(** C8, as stated, fails: in a blob whose bytes 16..23 encode 1 and whose
    bytes 24..31 encode 2, the entry count read by [_read_header] is 1, not
    what the 8 bytes at offset 24 decode to. *)
Lemma C8_count_is_not_read_at_offset_24 :
  let blob := gguf_header 1 ++ le_bytes 8 2 in
  fst (_read_header enough_memory (File blob 0 false)) = Ok 1
  /\ unpack_Q (take 8 (drop 24 blob)) = Ok 2
  /\ fst (_read_header enough_memory (File blob 0 false))
     <> unpack_Q (take 8 (drop 24 blob)).
Proof. vm_compute. repeat split; congruence. Qed.

(** C8, amended: the header read skips 16 bytes (magic, version, tensor
    count) and decodes the entry count from the 8 bytes that start at byte
    offset 16; it leaves the read position at 24, the size of the whole
    header, or at the end of a shorter blob. *)
Theorem C8_header_count_at_offset_16 (can_allocate : N -> bool)
        (blob : list byte) (c : bool) :
  can_allocate 4 = true -> can_allocate 8 = true ->
  _read_header can_allocate (File blob 0 c)
  = (unpack_Q (take 8 (drop 16 blob)), File blob (Nat.min 24 (length blob)) c)
  /\ ((24 <= length blob)%nat ->
      _read_header can_allocate (File blob 0 c)
      = (Ok (le_decode (take 8 (drop 16 blob))), File blob 24 c)).
Proof.
  intros H4 H8. split; [by apply read_header_spec|].
  intros Hlen. rewrite read_header_spec by done.
  unfold unpack_Q. rewrite length_take, length_drop.
  replace (8 `min` (length blob - 16))%nat with 8%nat by lia.
  cbn [Nat.eqb]. f_equal. f_equal. lia.
Qed.

Lemma C8_header_count_at_offset_16_witness :
  let blob := gguf_header 1 ++ le_bytes 8 2 in
  _read_header enough_memory (File blob 0 false) = (Ok 1, File blob 24 false).
Proof.
  intros blob.
  destruct (C8_header_count_at_offset_16 enough_memory blob false) as [_ H];
    [reflexivity|reflexivity|].
  rewrite H; [reflexivity|vm_compute; lia].
Defined.

(** C9 fails on the exception path: the file object is closed when
    [__init__] returns and left open when an exception leaves it, since
    [self.file.close()] is a statement of its own after the call of
    [_read_metadata]. *)
Theorem C9_file_closed_only_when_init_returns (can_allocate : N -> bool)
        (on_disk : option (list byte))
        (r : outcome (gmap str (option str))) (f : file) :
  GGUFMetadataReader can_allocate on_disk = (r, Some f) ->
  closed f = match r with Ok _ => true | Raise _ => false end.
Proof.
  intros Hinit. destruct r as [metadata|e].
  - by rewrite (init_closed_iff_returned _ _ _ _ Hinit).
  - by rewrite (init_closed_iff_returned _ _ _ _ Hinit).
Qed.

(** On an empty file [_read_header] raises [struct.error] and the file stays
    open. *)
Lemma C9_file_closed_only_when_init_returns_witness :
  GGUFMetadataReader enough_memory (Some [])
  = (Raise StructError, Some (File [] 0 false))
  /\ closed (File [] 0 false) = false.
Proof.
  split; [reflexivity|].
  apply (C9_file_closed_only_when_init_returns enough_memory (Some [])
           (Raise StructError)).
  reflexivity.
Defined.

(** What the [try] of the loop handles: a key read that raises with the
    file exhausted (the 8-byte length prefix is incomplete, or the shortened
    payload does not decode). Every remaining turn fails in its key read as
    well, and [_read_metadata] returns the mapping accumulated before. *)
Lemma truncated_key_returns_accumulated (can_allocate : N -> bool)
        (blob : list byte) (count : N) (f0 : file) (k : nat) (f : file)
        (metadata : gmap str (option str)) (e : exn) (f' : file) :
  _read_header can_allocate (File blob 0 false) = (Ok count, f0) ->
  scanned can_allocate k f0 ∅ f metadata ->
  (k < N.to_nat count)%nat ->
  _read_string can_allocate f = (Raise e, f') ->
  at_eof f' ->
  _read_metadata can_allocate (File blob 0 false) = (Ok metadata, f').
Proof.
  intros Hhdr Hscanned Hk Hkey Heof.
  unfold _read_metadata, bind. rewrite Hhdr.
  replace (N.to_nat count) with (k + S (N.to_nat count - S k))%nat by lia.
  rewrite (scanned_scan _ _ _ _ _ _ Hscanned).
  by eapply scan_key_error_at_eof.
Qed.

(** The usual case: fewer than 8 bytes are left where the length prefix of
    a key is expected. *)
Corollary incomplete_key_prefix_returns_accumulated
          (can_allocate : N -> bool) (blob : list byte) (count : N)
          (f0 : file) (k : nat) (f : file) (metadata : gmap str (option str)) :
  can_allocate 8 = true ->
  _read_header can_allocate (File blob 0 false) = (Ok count, f0) ->
  scanned can_allocate k f0 ∅ f metadata ->
  (k < N.to_nat count)%nat ->
  (length (remaining f) < 8)%nat ->
  fst (_read_metadata can_allocate (File blob 0 false)) = Ok metadata.
Proof.
  intros Hc Hhdr Hscanned Hk Hshort.
  destruct (read_string_short_prefix can_allocate f Hc Hshort)
    as (f' & Hkey & Heof).
  unfold _read_metadata, bind. rewrite Hhdr.
  replace (N.to_nat count) with (k + S (N.to_nat count - S k))%nat by lia.
  rewrite (scanned_scan _ _ _ _ _ _ Hscanned).
  by rewrite (scan_key_error_at_eof _ _ _ _ _ _ Hkey Heof).
Qed.

Example incomplete_key_prefix_after_one_entry :
  let blob := gguf_header 3 ++ string_entry "k" "v" ++ le_bytes 3 5 in
  _read_metadata enough_memory (File blob 0 false)
  = (Ok {[ py "k" := Some (py "v") ]}, File blob 49 false).
Proof.
  intros blob.
  apply (truncated_key_returns_accumulated enough_memory blob 3
           (File blob 24 false) 1 (File blob 46 false) _ StructError).
  - reflexivity.
  - eapply (scanned_string _ 0 _ _ (py "k") (File blob 33 false)
              (le_bytes 4 8) (File blob 37 false) (Some (py "v")));
      [reflexivity|reflexivity|reflexivity|reflexivity|discriminate|].
    apply scanned_none.
  - vm_compute. lia.
  - reflexivity.
  - reflexivity.
Qed.

(** The three ways a file can end inside a key, the header announcing one
    entry whose key is declared 5 bytes long. Cut inside the length prefix:
    the key read raises [struct.error], which the [try] catches, and the
    empty mapping is returned. Cut inside a character of the payload: the key
    read raises [UnicodeDecodeError], caught as well. Cut between two
    characters: the key read succeeds with the shortened key, and the read of
    the type tag, outside the [try], raises [struct.error]. *)
Lemma key_cut_three_ways :
  _read_metadata enough_memory
    (File (gguf_header 1 ++ le_bytes 3 5) 0 false)
  = (Ok ∅, File (gguf_header 1 ++ le_bytes 3 5) 27 false)
  /\ _read_metadata enough_memory
       (File (gguf_header 1 ++ le_bytes 8 5 ++ [x61; xc3]%byte) 0 false)
     = (Ok ∅, File (gguf_header 1 ++ le_bytes 8 5 ++ [x61; xc3]%byte) 34 false)
  /\ _read_metadata enough_memory
       (File (gguf_header 1 ++ le_bytes 8 5 ++ bytes_of "ab") 0 false)
     = (Raise StructError,
        File (gguf_header 1 ++ le_bytes 8 5 ++ bytes_of "ab") 34 false).
Proof. vm_compute. repeat split; reflexivity. Qed.

(** C1 does not hold of the code. The file ends inside the payload of a key,
    between two characters: the length prefix is complete and declares more
    bytes than are left, and the bytes that are left decode. [read] returns
    them without an error, so the key read succeeds and the [try] has nothing
    to catch; the type tag is then read from the exhausted file, outside the
    [try], and [struct.error] leaves [_read_metadata]. The mapping accumulated
    by the turns before is not returned. *)
Theorem C1_short_key_payload_escapes_the_reader (can_allocate : N -> bool)
        (blob : list byte) (count : N) (f0 : file) (k : nat) (f : file)
        (metadata : gmap str (option str)) (prefix payload : list byte)
        (key : str) :
  _read_header can_allocate (File blob 0 false) = (Ok count, f0) ->
  scanned can_allocate k f0 ∅ f metadata ->
  (k < N.to_nat count)%nat ->
  remaining f = prefix ++ payload ->
  length prefix = 8%nat ->
  N.of_nat (length payload) < le_decode prefix < 2 ^ 63 ->
  can_allocate 8 = true -> can_allocate (le_decode prefix) = true ->
  can_allocate 4 = true ->
  decode payload = Ok key ->
  _read_metadata can_allocate (File blob 0 false)
  = (Raise StructError,
     File (content f) (pos f + 8 + length payload) (closed f)).
Proof.
  intros Hhdr Hscanned Hk Hrem Hpre [Hshort Hsmall] H8 Hpay H4 Hkey.
  destruct (read_string_short_payload can_allocate f prefix payload)
    as [Hread Heof]; [done|done|lia|done..|].
  rewrite Hkey in Hread.
  unfold _read_metadata, bind. rewrite Hhdr.
  replace (N.to_nat count) with (k + S (N.to_nat count - S k))%nat by lia.
  rewrite (scanned_scan _ _ _ _ _ _ Hscanned).
  cbn [scan]. rewrite Hread. unfold bind at 1.
  rewrite file_read_ok by done. red in Heof. rewrite Heof, take_nil.
  unfold bind at 1, lift at 1. cbn [unpack_I length Nat.eqb].
  f_equal. cbn [content pos closed]. f_equal.
  unfold remaining in Heof. cbn [content pos] in Heof.
  apply (f_equal length) in Heof. rewrite length_drop in Heof. cbn in Heof. lia.
Qed.

Lemma C1_short_key_payload_escapes_the_reader_witness :
  let blob := gguf_header 2 ++ string_entry "k" "v"
              ++ le_bytes 8 5 ++ bytes_of "ab" in
  _read_metadata enough_memory (File blob 0 false)
  = (Raise StructError, File blob 56 false).
Proof.
  intros blob.
  apply (C1_short_key_payload_escapes_the_reader enough_memory blob 2
           (File blob 24 false) 1 (File blob 46 false)
           {[ py "k" := Some (py "v") ]}
           (le_bytes 8 5) (bytes_of "ab") (py "ab")).
  - reflexivity.
  - eapply (scanned_string _ 0 _ _ (py "k") (File blob 33 false)
              (le_bytes 4 8) (File blob 37 false) (Some (py "v")));
      [reflexivity|reflexivity|reflexivity|reflexivity|discriminate|].
    apply scanned_none.
  - vm_compute. lia.
  - reflexivity.
  - reflexivity.
  - vm_compute. split; reflexivity.
  - reflexivity.
  - reflexivity.
  - reflexivity.
  - reflexivity.
Defined.

(** ** The fallback identifier *)

Section FallbackFacts.

Variable unicode_Nd : N -> bool.

Lemma sub_scan_skip_all (r : regex) (s : str) : sub_scan r s (length s) = [].
Proof. induction s as [|c s IH]; [done|]. cbn. exact IH. Qed.

(** A greedy [p+] that meets a character outside [p], or the end of the
    input, after a run of characters of [p] hands over right there, provided
    the rest of the pattern matches there. *)
Lemma plus_more_run (p : N -> bool) (run rest : str) (k : str -> option str)
      (r : str) :
  Forall (fun c => p c = true) run ->
  match rest with [] => True | x :: _ => p x = false end ->
  k rest = Some r ->
  plus_more p (run ++ rest) k = Some r.
Proof.
  intros Hrun Hrest Hk. induction Hrun as [|c run Hc _ IH]; cbn.
  - destruct rest as [|x rest]; [done|]. cbn. by rewrite Hrest.
  - by rewrite Hc, IH.
Qed.

Lemma quant_suffix_no_match_without_Q (c d : N) (u : str) :
  c <> 81 -> d <> 81 ->
  rmatch (quant_suffix unicode_Nd) (c :: d :: u) Some = None.
Proof.
  intros Hc Hd. apply N.eqb_neq in Hc, Hd. cbn.
  rewrite Hc, Hd. by destruct (_ || _).
Qed.

Lemma quant_suffix_matches (sep digits tail : str) :
  sep = [45] \/ sep = [95] \/ sep = [] ->
  digits <> [] -> Forall (fun c => re_digit unicode_Nd c = true) digits ->
  tail = [] \/ (exists t, tail = 95 :: t /\ t <> []
                /\ Forall (fun c => is_upper c || (c =? 95) = true) t) ->
  rmatch (quant_suffix unicode_Nd) (sep ++ [81] ++ digits ++ tail) Some
  = Some [].
Proof.
  intros Hsep Hne Hdig Htail.
  destruct digits as [|d0 digits]; [done|]. inversion_clear Hdig as [|? ? Hd0 Hds].
  assert (rmatch (Cat (Lit 81) (Cat (Plus (re_digit unicode_Nd))
     (Cat (Opt (Cat (Lit 95) (Plus (fun c => is_upper c || (c =? 95)))))
        EndOfString))) ([81] ++ (d0 :: digits) ++ tail) Some = Some []) as Hcore.
  { cbn. rewrite Hd0. apply plus_more_run; [done| |].
    - destruct Htail as [->|(t & -> & _)]; [done|]. reflexivity.
    - destruct Htail as [->|(t & -> & Ht & Hall)]; [reflexivity|].
      cbn. destruct t as [|t0 t]; [done|]. inversion_clear Hall as [|? ? Ht0 Hts].
      rewrite Ht0.
      rewrite <- (app_nil_r t).
      by rewrite (plus_more_run _ t [] _ []). }
  destruct Hsep as [->|[->| ->]]; cbn in *; by rewrite Hcore.
Qed.

Lemma sub_scan_keep (r : regex) (u rest : str) :
  (forall v w, u = v ++ w -> w <> [] -> rmatch r (w ++ rest) Some = None) ->
  sub_scan r (u ++ rest) 0 = u ++ sub_scan r rest 0.
Proof.
  induction u as [|c u IH]; intros Hno; [done|].
  cbn [app sub_scan].
  change (c :: u ++ rest) with ((c :: u) ++ rest).
  rewrite (Hno [] (c :: u)) by done. f_equal. apply IH.
  intros v w -> Hw. apply (Hno (c :: v) w); done.
Qed.

Lemma sub_scan_delete_rest (r : regex) (s : str) :
  s <> [] -> rmatch r s Some = Some [] -> sub_scan r s 0 = [].
Proof.
  destruct s as [|c s]; [done|]. intros _ Hm. cbn [sub_scan]. rewrite Hm.
  cbn [length]. rewrite Nat.sub_0_r. apply sub_scan_skip_all.
Qed.

Lemma gguf_extension_no_early_match (u : str) :
  u <> [] -> rmatch gguf_extension (u ++ py ".gguf") Some = None.
Proof.
  intros Hu. change (py ".gguf") with [46; 103; 103; 117; 102].
  destruct u as [|c1 [|c2 [|c3 [|c4 [|c5 u]]]]]; [done|..]; cbn;
    repeat (case_match; try done);
    by destruct u as [|? [|? ?]].
Qed.

Lemma strip_gguf_extension (body : str) :
  re_sub_delete gguf_extension (body ++ py ".gguf") = body.
Proof.
  unfold re_sub_delete. rewrite sub_scan_keep.
  - by rewrite app_nil_r.
  - intros v w _ Hw. by apply gguf_extension_no_early_match.
Qed.

(** *** What a successful match has consumed *)

Lemma plus_more_inv (p : N -> bool) (s : str) (k : str -> option str)
      (r : str) :
  plus_more p s k = Some r ->
  exists run rest,
    s = run ++ rest /\ Forall (fun c => p c = true) run /\ k rest = Some r.
Proof.
  induction s as [|x s IH]; cbn; intros H.
  - by exists [], [].
  - destruct (p x) eqn:Hp; [|by exists [], (x :: s)].
    destruct (plus_more p s k) as [o|] eqn:Hm; [|by exists [], (x :: s)].
    destruct (IH H) as (run & rest & -> & Hrun & Hk).
    exists (x :: run), rest. split; [done|]. split; [by constructor|done].
Qed.

Lemma rmatch_Lit_inv (c : N) (s : str) (k : str -> option str) (r : str) :
  rmatch (Lit c) s k = Some r -> exists s', s = c :: s' /\ k s' = Some r.
Proof.
  destruct s as [|x s']; cbn; [done|].
  destruct (N.eqb_spec x c) as [->|_]; [|done]. eauto.
Qed.

Lemma rmatch_Class_inv (p : N -> bool) (s : str) (k : str -> option str)
      (r : str) :
  rmatch (Class p) s k = Some r ->
  exists x s', s = x :: s' /\ p x = true /\ k s' = Some r.
Proof.
  destruct s as [|x s']; cbn; [done|].
  destruct (p x) eqn:Hp; [|done]. eauto.
Qed.

Lemma rmatch_Opt_inv (r' : regex) (s : str) (k : str -> option str)
      (r : str) :
  rmatch (Opt r') s k = Some r -> rmatch r' s k = Some r \/ k s = Some r.
Proof. cbn. destruct (rmatch r' s k); [left|right]; done. Qed.

Lemma rmatch_Plus_inv (p : N -> bool) (s : str) (k : str -> option str)
      (r : str) :
  rmatch (Plus p) s k = Some r ->
  exists run rest,
    s = run ++ rest /\ run <> [] /\ Forall (fun c => p c = true) run
    /\ k rest = Some r.
Proof.
  destruct s as [|x s']; cbn; [done|].
  destruct (p x) eqn:Hp; [|done]. intros H.
  destruct (plus_more_inv _ _ _ _ H) as (run & rest & -> & Hrun & Hk).
  exists (x :: run), rest. split; [done|]. split; [done|].
  split; [by constructor|done].
Qed.

Lemma rmatch_EndOfString_inv (s : str) (k : str -> option str) (r : str) :
  rmatch EndOfString s k = Some r -> (s = [] \/ s = [10]) /\ k s = Some r.
Proof.
  destruct s as [|x [|y s']].
  - cbn. auto.
  - destruct (N.eqb_spec x 10) as [->|Hx]; [cbn; auto|].
    cbn. intros H. exfalso. destruct x as [|p]; [done|].
    repeat (destruct p as [p|p|]; try done).
  - cbn. intros H. exfalso. destruct x as [|p]; [done|].
    repeat (destruct p as [p|p|]; try done).
Qed.

(** Two ways of cutting a string into a head, one character outside a class
    and a run inside the class cut it at the same place. *)
Lemma run_unique (C : N -> bool) (X Y : str) (x y : N) (tl tail : str) :
  X ++ x :: tl = Y ++ y :: tail ->
  C x = false -> C y = false ->
  Forall (fun c => C c = true) tl -> Forall (fun c => C c = true) tail ->
  X = Y /\ x = y /\ tl = tail.
Proof.
  intros E Hx Hy Htl Htail. revert Y E.
  induction X as [|x0 X IH]; intros [|y0 Y] E; cbn in E.
  - by injection E as -> ->.
  - injection E as -> ->. apply Forall_app in Htl as [_ Htl].
    inversion_clear Htl as [|? ? Hy' _]. congruence.
  - injection E as -> <-. apply Forall_app in Htail as [_ Htail].
    inversion_clear Htail as [|? ? Hx' _]. congruence.
  - injection E as -> E. destruct (IH Y E) as (-> & -> & ->). done.
Qed.

Local Ltac split_cat H :=
  cbv beta in H;
  change (rmatch (Cat ?a ?b) ?s ?k)
    with (rmatch a s (fun s' => rmatch b s' k)) in H.

Lemma quant_suffix_inv (s r : str) :
  rmatch (quant_suffix unicode_Nd) s Some = Some r ->
  exists pre ds tl,
    s = pre ++ [81] ++ ds ++ tl ++ r
    /\ (pre = [] \/ pre = [45] \/ pre = [95])
    /\ ds <> [] /\ Forall (fun c => re_digit unicode_Nd c = true) ds
    /\ Forall (fun c => is_upper c || (c =? 95) = true) tl
    /\ (r = [] \/ r = [10]).
Proof.
  intros H. unfold quant_suffix in H. split_cat H.
  assert (exists pre s1,
             s = pre ++ s1 /\ (pre = [] \/ pre = [45] \/ pre = [95])
             /\ rmatch (Cat (Lit 81) (Cat (Plus (re_digit unicode_Nd))
                  (Cat (Opt (Cat (Lit 95)
                                 (Plus (fun c => is_upper c || (c =? 95)))))
                       EndOfString))) s1 Some = Some r)
    as (pre & s1 & -> & Hpre & Hcore).
  { apply rmatch_Opt_inv in H as [H|H].
    - apply rmatch_Class_inv in H as (x & s' & -> & Hx & H).
      exists [x], s'. split; [done|]. split; [|done].
      apply orb_true_iff in Hx as [Hx|Hx]; apply N.eqb_eq in Hx as ->; auto.
    - exists [], s. auto. }
  clear H. split_cat Hcore.
  apply rmatch_Lit_inv in Hcore as (s2 & -> & H). split_cat H.
  apply rmatch_Plus_inv in H as (ds & s3 & -> & Hne & Hds & H). split_cat H.
  exists pre, ds.
  apply rmatch_Opt_inv in H as [H|H].
  - split_cat H. apply rmatch_Lit_inv in H as (s4 & -> & H). cbv beta in H.
    apply rmatch_Plus_inv in H as (run & s5 & -> & _ & Hrun & H).
    apply rmatch_EndOfString_inv in H as [Hend [= ->]].
    exists (95 :: run). repeat split; try done.
    by constructor.
  - apply rmatch_EndOfString_inv in H as [Hend [= ->]].
    exists []. repeat split; done.
Qed.


Local Abbreviation after_digits :=
  (fun c : N => is_upper c || (c =? 95) || (c =? 10)).

Lemma re_digit_not_after_digits (c : N) :
  re_digit unicode_Nd c = true -> after_digits c = false.
Proof.
  unfold re_digit, is_digit, is_upper. intros H.
  assert (48 <= c <= 57 \/ 128 <= c) as Hc.
  { destruct (N.ltb_spec c 128) as [Hlt|Hge]; [left|by right].
    apply andb_true_iff in H as [H1 H2]. apply N.leb_le in H1, H2. lia. }
  rewrite !orb_false_iff, andb_false_iff, !N.leb_gt, !N.eqb_neq. lia.
Qed.

Lemma strip_quant_suffix (stem sep digits tail : str) :
  sep = [45] \/ sep = [95]
  \/ (sep = [] /\ forall s c, stem = s ++ [c] -> c <> 45 /\ c <> 95) ->
  digits <> [] -> Forall (fun c => re_digit unicode_Nd c = true) digits ->
  tail = [] \/ (exists t, tail = 95 :: t /\ t <> []
                /\ Forall (fun c => is_upper c || (c =? 95) = true) t) ->
  re_sub_delete (quant_suffix unicode_Nd) (stem ++ sep ++ [81] ++ digits ++ tail)
  = stem.
Proof.
  intros Hsep Hne Hdig Htail. unfold re_sub_delete.
  assert (Forall (fun c => is_upper c || (c =? 95) = true) tail) as Htl.
  { destruct Htail as [->|(t & -> & _ & Ht)]; [constructor|by constructor]. }
  rewrite sub_scan_keep.
  - rewrite sub_scan_delete_rest; [by rewrite app_nil_r| |].
    + by destruct Hsep as [->|[->|[-> _]]].
    + apply quant_suffix_matches; [|done..].
      destruct Hsep as [->|[->|[-> _]]]; auto.
  - intros v w -> Hw.
    destruct (rmatch (quant_suffix unicode_Nd)
                     (w ++ sep ++ [81] ++ digits ++ tail) Some)
      as [r|] eqn:Hm; [exfalso|done].
    apply quant_suffix_inv in Hm
      as (pre & ds & tl & E & Hpre & Hdsne & Hds & Htl' & Hr).
    destruct (exists_last Hne) as (di & dl & ->).
    destruct (exists_last Hdsne) as (si & sl & ->).
    apply Forall_app in Hdig as [Hdi Hdl]. apply Forall_app in Hds as [Hsi Hsl].
    inversion_clear Hdl as [|? ? Hdl' _]. inversion_clear Hsl as [|? ? Hsl' _].
    assert (w ++ sep = pre) as Hcut.
    { assert ((w ++ sep ++ [81] ++ di) ++ dl :: tail
              = (pre ++ [81] ++ si) ++ sl :: (tl ++ r)) as E1.
      { rewrite <- !app_assoc. rewrite <- !app_assoc in E. exact E. }
      apply (run_unique after_digits) in E1 as (E2 & _ & _).
      - assert ((w ++ sep) ++ 81 :: di = pre ++ 81 :: si) as E3.
        { rewrite <- !app_assoc. exact E2. }
        apply (run_unique (re_digit unicode_Nd)) in E3 as (E4 & _ & _); done.
      - by apply re_digit_not_after_digits.
      - by apply re_digit_not_after_digits.
      - eapply Forall_impl; [exact Htl|].
        intros c Hc. cbv beta in Hc. by rewrite Hc.
      - apply Forall_app. split.
        + eapply Forall_impl; [exact Htl'|].
          intros c Hc. cbv beta in Hc. by rewrite Hc.
        + destruct Hr as [->| ->]; repeat constructor. }
    assert (length w + length sep <= 1)%nat as Hlen.
    { apply (f_equal length) in Hcut. rewrite length_app in Hcut.
      destruct Hpre as [->|[->| ->]]; cbn in Hcut; lia. }
    destruct w as [|c w]; [done|]. cbn [length] in Hlen.
    destruct w as [|? ?]; [|cbn [length] in Hlen; lia].
    destruct Hsep as [->|[->|[-> Hlast]]]; [cbn in Hlen; lia..|].
    rewrite app_nil_r in Hcut. destruct (Hlast v c eq_refl) as [H45 H95].
    subst pre. by destruct Hpre as [?|[[= ?]|[= ?]]].
Qed.

End FallbackFacts.

Lemma basename_from_slash (dir name seg : str) :
  basename_from (dir ++ 47 :: name) seg = basename_from name name.
Proof.
  revert seg. induction dir as [|c dir IH]; intros seg; cbn; [done|].
  destruct (c =? 47); apply IH.
Qed.

Lemma basename_from_no_slash (p seg : str) :
  Forall (fun c => c <> 47) p -> basename_from p seg = seg.
Proof.
  induction 1 as [|c p Hc _ IH]; cbn; [done|].
  apply N.eqb_neq in Hc. by rewrite Hc.
Qed.

Lemma basename_in_directory (dir name : str) :
  Forall (fun c => c <> 47) name -> basename (dir ++ 47 :: name) = name.
Proof.
  intros H. unfold basename. rewrite basename_from_slash.
  by apply basename_from_no_slash.
Qed.

(** C3, as stated, fails twice. The spec's file name keeps the dot that
    precedes [Q4_K_M], since the pattern allows only [-] or [_] there; and
    [_Q8_0] is not removed, since after the underscore the pattern takes
    upper-case letters and underscores, not digits. *)
Lemma C3_fallback_keeps_dot_and_Q8_0 :
  fallback_identifier ascii_digits_only (py "mistral-7b-instruct.Q4_K_M.gguf")
  = py "mistral-7b-instruct."
  /\ fallback_identifier ascii_digits_only
       (py "mistral-7b-instruct.Q4_K_M.gguf")
     <> py "mistral-7b-instruct"
  /\ fallback_identifier ascii_digits_only (py "llama-2-7b_Q8_0.gguf")
     = py "llama-2-7b_Q8_0"
  /\ re_sub_delete (quant_suffix ascii_digits_only) (py "llama-2-7b_Q8_0")
     = py "llama-2-7b_Q8_0".
Proof. vm_compute. repeat split; congruence. Qed.

(** C3, amended: the fallback identifier is the base name without its
    trailing [.gguf] and without the quantization suffix that then ends it.
    Whenever the base name is [stem sep Q digits tail .gguf], where [sep] is
    [-], [_] or nothing (nothing only if [stem] does not end in [-] or [_]),
    [digits] is one character or more that [\d] matches, and [tail] is empty
    or an underscore followed by one character or more among [A-Z] and [_],
    the fallback identifier is [stem], whatever [stem] contains: a dot before
    the [Q] stays, and a suffix of the same shape further to the left stays
    as well. *)
Theorem C3_fallback_strips_extension_and_quant_suffix (unicode_Nd : N -> bool)
        (path stem sep digits tail : str) :
  basename path = stem ++ sep ++ [81] ++ digits ++ tail ++ py ".gguf" ->
  sep = [45] \/ sep = [95]
  \/ (sep = [] /\ forall s c, stem = s ++ [c] -> c <> 45 /\ c <> 95) ->
  digits <> [] -> Forall (fun c => re_digit unicode_Nd c = true) digits ->
  tail = [] \/ (exists t, tail = 95 :: t /\ t <> []
                /\ Forall (fun c => is_upper c || (c =? 95) = true) t) ->
  fallback_identifier unicode_Nd path = stem.
Proof.
  intros Hbase Hsep Hne Hdig Htail.
  unfold fallback_identifier. rewrite Hbase.
  replace (stem ++ sep ++ [81] ++ digits ++ tail ++ py ".gguf")
    with ((stem ++ sep ++ [81] ++ digits ++ tail) ++ py ".gguf")
    by (by rewrite <- !app_assoc).
  rewrite strip_gguf_extension.
  by apply strip_quant_suffix.
Qed.

Lemma C3_fallback_strips_extension_and_quant_suffix_witness :
  fallback_identifier ascii_digits_only (py "mistral-7b-instruct.Q4_K_M.gguf")
  = py "mistral-7b-instruct."
  /\ fallback_identifier ascii_digits_only
       (py "/models/Qwen2-Q4_K_M-tuned_Q8.gguf")
     = py "Qwen2-Q4_K_M-tuned".
Proof.
  split.
  - apply (C3_fallback_strips_extension_and_quant_suffix ascii_digits_only
             _ (py "mistral-7b-instruct.") [] (py "4") (py "_K_M")).
    + reflexivity.
    + right. right. split; [reflexivity|].
      intros s c E. apply (f_equal (@rev N)) in E. rewrite rev_app_distr in E.
      vm_compute in E. injection E as <- _. split; discriminate.
    + discriminate.
    + vm_compute. repeat constructor.
    + right. exists (py "K_M"). split; [reflexivity|].
      split; [discriminate|]. vm_compute. repeat constructor.
  - apply (C3_fallback_strips_extension_and_quant_suffix ascii_digits_only
             _ (py "Qwen2-Q4_K_M-tuned") (py "_") (py "8") []).
    + reflexivity.
    + right. left. reflexivity.
    + discriminate.
    + vm_compute. repeat constructor.
    + left. reflexivity.
Defined.

(** ** Selection *)

Lemma Qltb_lt (x y : Q) : Qltb x y = true <-> (x < y)%Q.
Proof.
  unfold Qltb. rewrite negb_true_iff, <- not_true_iff_false, Qle_bool_iff.
  split; [apply Qnot_le_lt|apply Qlt_not_le].
Qed.

Lemma Qltb_ge (x y : Q) : Qltb x y = false <-> (y <= x)%Q.
Proof. unfold Qltb. by rewrite negb_false_iff, Qle_bool_iff. Qed.

Lemma select_scored_pairs horde_models normalized_identifiers :
  select horde_models normalized_identifiers
  = fold_left keep_best (scored_pairs horde_models normalized_identifiers)
              (None, 0%Q).
Proof.
  unfold select, scored_pairs. generalize (@None str, 0%Q).
  induction horde_models as [|entry cat IH]; intros best; [done|].
  cbn [fold_left flat_map]. rewrite fold_left_app, IH. f_equal.
  generalize (default [] (model_name entry.2)). intros name. clear.
  unfold score_pair, boosted_score.
  destruct (_normalize name) as [|c norm_name].
  - induction normalized_identifiers; [done|]. cbn. done.
  - revert best. induction normalized_identifiers as [|norm_id ids IH];
      intros best; [done|].
    cbn [fold_left map]. rewrite IH. done.
Qed.

Section KeepBest.

Implicit Types (pairs pre post : list (str * Q)) (best init : option str * Q).

(** Scores that do not exceed the current best leave it in place. *)
Lemma keep_best_none_better pairs best :
  Forall (fun p => (snd p <= snd best)%Q) pairs ->
  fold_left keep_best pairs best = best.
Proof.
  induction 1 as [|p pairs Hp _ IH]; [done|].
  cbn [fold_left]. unfold keep_best at 2.
  apply Qltb_ge in Hp. by rewrite Hp.
Qed.

(** Below [s] everywhere: the best stays below [s]. *)
Lemma keep_best_below pairs best (s : Q) :
  (snd best < s)%Q -> Forall (fun p => (snd p < s)%Q) pairs ->
  (snd (fold_left keep_best pairs best) < s)%Q.
Proof.
  intros Hb Hall. revert best Hb.
  induction Hall as [|p pairs Hp _ IH]; intros best Hb; [done|].
  cbn [fold_left]. apply IH. unfold keep_best. by destruct (Qltb _ _).
Qed.

(** The first pair that reaches the highest score is the one kept. *)
Lemma keep_best_first_max pre post init (name : str) (s : Q) :
  (snd init < s)%Q ->
  Forall (fun p => (snd p < s)%Q) pre ->
  Forall (fun p => (snd p <= s)%Q) post ->
  fold_left keep_best (pre ++ (name, s) :: post) init = (Some name, s).
Proof.
  intros Hinit Hpre Hpost. rewrite fold_left_app. cbn [fold_left].
  pose proof (keep_best_below pre init s Hinit Hpre) as Hlt.
  unfold keep_best at 2. cbn [fst snd].
  apply Qltb_lt in Hlt. rewrite Hlt.
  by apply keep_best_none_better.
Qed.

(** What is kept is the start value or comes from a pair. *)
Lemma keep_best_origin pairs init :
  fold_left keep_best pairs init = init
  \/ exists p, p ∈ pairs /\ fold_left keep_best pairs init = (Some (fst p), snd p).
Proof.
  revert init. induction pairs as [|p pairs IH]; intros init; [by left|].
  cbn [fold_left]. destruct (IH (keep_best init p)) as [E|(q & Hq & E)].
  - rewrite E. unfold keep_best. destruct (Qltb _ _); [|by left].
    right. exists p. split; [apply list_elem_of_here|done].
  - right. exists q. split; [by apply list_elem_of_further|done].
Qed.

End KeepBest.

Lemma scored_pairs_from_catalog horde_models normalized_identifiers p :
  p ∈ scored_pairs horde_models normalized_identifiers ->
  exists model_id data,
    (model_id, data) ∈ horde_models
    /\ model_name data = Some (fst p)
    /\ _normalize (fst p) <> [].
Proof.
  unfold scored_pairs. rewrite list_elem_of_In, in_flat_map.
  intros ([model_id data] & Hin & Hp). cbn [snd] in Hp.
  exists model_id, data. apply list_elem_of_In in Hin. split; [done|].
  destruct (_normalize (default [] (model_name data))) as [|c n] eqn:En;
    [done|].
  apply in_map_iff in Hp as (norm_id & <- & _). cbn [fst].
  destruct (model_name data) as [name|]; cbn in *; [|done].
  split; [done|]. by rewrite En.
Qed.

(** The answer of the matcher is the empty string or the display name of a
    scored pair; it is never [None]. *)
Lemma best_display_name_origin horde_models normalized_identifiers :
  best_display_name horde_models normalized_identifiers = Some []
  \/ exists p, p ∈ scored_pairs horde_models normalized_identifiers
               /\ best_display_name horde_models normalized_identifiers
                  = Some (fst p).
Proof.
  unfold best_display_name. rewrite select_scored_pairs.
  destruct (keep_best_origin
              (scored_pairs horde_models normalized_identifiers) (None, 0%Q))
    as [->|(p & Hp & ->)].
  - by left.
  - destruct (Qle_bool _ _); [|by left]. right. by exists p.
Qed.

(** What [get_model_name] returns is what the matcher answers, or the empty
    string. *)
Lemma get_model_name_cases can_allocate unicode_Nd gguf_path on_disk horde_models :
  get_model_name can_allocate unicode_Nd gguf_path on_disk horde_models
  = Ok (Some [])
  \/ exists ids,
      get_model_name can_allocate unicode_Nd gguf_path on_disk horde_models
      = Ok (best_display_name horde_models ids).
Proof.
  unfold get_model_name, get_model_name_body.
  destruct (GGUFMetadataReader can_allocate on_disk).1 as [metadata|e];
    [|by left].
  right. eauto.
Qed.

(** A display name whose normal form is empty is passed over. *)
Lemma score_pair_empty_name (model_short_name norm_id : str)
      (best : option str * Q) :
  _normalize model_short_name = [] ->
  score_pair model_short_name norm_id best = best.
Proof. unfold score_pair. by intros ->. Qed.

(** An identifier whose normal form is empty is not: it is contained in
    every string, and the pair gets the score 0.7. *)
Lemma boosted_score_empty_identifier (norm_name : str) :
  norm_name <> [] -> boosted_score [] norm_name = 7 # 10.
Proof. by destruct norm_name. Qed.

Lemma scored_pairs_empty_identifier (horde_models : list (str * model_data)) :
  Forall (fun p => snd p = 7 # 10) (scored_pairs horde_models [[]]).
Proof.
  unfold scored_pairs. induction horde_models as [|entry cat IH]; [constructor|].
  cbn [flat_map]. apply Forall_app_2; [|done].
  destruct (_normalize _) as [|c norm_name] eqn:E; [constructor|].
  repeat constructor.
Qed.

(** With an identifier whose normal form is empty, the first entry of the
    catalog whose name has a normal form is the answer, whatever the name. *)
Lemma empty_identifier_selects_first_entry (model_id name : str)
      (rest : list (str * model_data)) :
  _normalize name <> [] ->
  best_display_name ((model_id, ModelData (Some name)) :: rest) [[]]
  = Some name.
Proof.
  intros Hname. unfold best_display_name. rewrite select_scored_pairs.
  pose proof (scored_pairs_empty_identifier rest) as Hrest.
  unfold scored_pairs in *. cbn [flat_map snd model_name from_option].
  unfold id at 1 2.
  destruct (_normalize name) as [|c norm_name] eqn:E; [done|].
  cbn [map app].
  match goal with
  | |- context [fold_left keep_best (_ :: ?post) _] =>
      pose proof (keep_best_first_max [] post (None, 0%Q) name
                    (boosted_score [] (c :: norm_name))) as Hfirst
  end.
  cbn [app] in Hfirst. rewrite Hfirst.
  - reflexivity.
  - reflexivity.
  - constructor.
  - eapply Forall_impl; [exact Hrest|]. intros p ->. by vm_compute.
Qed.

(** ** The claims about the matcher *)

(** C7: the first pair that reaches the highest score decides. Its display
    name is returned when the score is at least 1/2, the bound included, and
    the empty string when it is below; a later pair with the same score does
    not replace it. *)
Theorem C7_threshold_inclusive_first_best_kept
        (horde_models : list (str * model_data))
        (normalized_identifiers : list str)
        (pre post : list (str * Q)) (name : str) (s : Q) :
  scored_pairs horde_models normalized_identifiers = pre ++ (name, s) :: post ->
  Forall (fun p => (snd p < s)%Q) pre ->
  Forall (fun p => (snd p <= s)%Q) post ->
  ((1 # 2 <= s)%Q ->
   best_display_name horde_models normalized_identifiers = Some name)
  /\ ((s < 1 # 2)%Q ->
      best_display_name horde_models normalized_identifiers = Some []).
Proof.
  intros Hpairs Hpre Hpost. unfold best_display_name.
  rewrite select_scored_pairs, Hpairs.
  destruct (Qlt_le_dec 0 s) as [Hpos|Hzero].
  - rewrite keep_best_first_max by done. split; intros Hs.
    + apply Qle_bool_iff in Hs. by rewrite Hs.
    + destruct (Qle_bool (1 # 2) s) eqn:E; [|done].
      apply Qle_bool_iff in E. by apply Qlt_not_le in Hs.
  - rewrite keep_best_none_better.
    + split; [|done]. intros Hs. exfalso.
      apply (Qlt_not_le 0 (1 # 2)); [done|]. by apply (Qle_trans _ s).
    + apply Forall_app_2; [|constructor].
      * eapply Forall_impl; [exact Hpre|]. intros p Hp. cbn.
        apply (Qle_trans _ s); [apply Qlt_le_weak, Hp|done].
      * done.
      * eapply Forall_impl; [exact Hpost|]. intros p Hp. cbn.
        by apply (Qle_trans _ s).
Qed.

(** C10: a non-empty answer is, as it stands, the [model_name] of an entry
    of the catalog, and the normal form of that name is not empty. *)
Theorem C10_answer_is_a_catalog_display_name
        (can_allocate unicode_Nd : N -> bool) (gguf_path : str)
        (on_disk : option (list byte)) (horde_models : list (str * model_data))
        (answer : str) :
  get_model_name can_allocate unicode_Nd gguf_path on_disk horde_models
  = Ok (Some answer) ->
  answer <> [] ->
  exists model_id data,
    (model_id, data) ∈ horde_models
    /\ model_name data = Some answer
    /\ _normalize answer <> [].
Proof.
  intros Hget Hne.
  destruct (get_model_name_cases can_allocate unicode_Nd gguf_path on_disk
                                 horde_models) as [E|[ids E]];
    rewrite E in Hget; [congruence|].
  destruct (best_display_name_origin horde_models ids) as [E'|(p & Hp & E')];
    rewrite E' in Hget; [congruence|].
  injection Hget as <-. by eapply scored_pairs_from_catalog.
Qed.

(** C6: for every path, every file content (or none) and every catalog,
    [get_model_name] returns one string and raises nothing; the string is
    empty or a display name of the catalog, and it is empty whenever the
    reader raised. *)
Theorem C6_get_model_name_total
        (can_allocate unicode_Nd : N -> bool) (gguf_path : str)
        (on_disk : option (list byte)) (horde_models : list (str * model_data)) :
  exists answer : str,
    get_model_name can_allocate unicode_Nd gguf_path on_disk horde_models
    = Ok (Some answer)
    /\ (answer = []
        \/ exists model_id data,
            (model_id, data) ∈ horde_models /\ model_name data = Some answer)
    /\ (forall e, fst (GGUFMetadataReader can_allocate on_disk) = Raise e ->
                  answer = []).
Proof.
  unfold get_model_name, get_model_name_body.
  destruct (GGUFMetadataReader can_allocate on_disk).1 as [metadata|e].
  - match goal with
    | |- context [best_display_name ?c ?i] =>
        destruct (best_display_name_origin c i) as [E|(p & Hp & E)]; rewrite E
    end.
    + exists []. split; [done|]. split; [by left|done].
    + exists (fst p). split; [done|]. split; [|done]. right.
      destruct (scored_pairs_from_catalog _ _ _ Hp) as (model_id & data & ? & ? & _).
      eauto.
  - exists []. split; [done|]. split; [by left|done].
Qed.

Lemma C7_threshold_inclusive_first_best_kept_witness :
  best_display_name tide_catalog [py "diet"] = Some (py "Tide")
  /\ best_display_name [(py "a", ModelData (Some (py "diet")))] [py "tide"]
     = Some [].
Proof.
  split.
  - apply (C7_threshold_inclusive_first_best_kept tide_catalog [py "diet"]
             [] [(py "TIDE", 4 # 8); (py "xyz", 0 # 7)] (py "Tide") (4 # 8)).
    + reflexivity.
    + constructor.
    + repeat constructor; by vm_compute.
    + by vm_compute.
  - apply (C7_threshold_inclusive_first_best_kept
             [(py "a", ModelData (Some (py "diet")))] [py "tide"]
             [] [] (py "diet") (2 # 8)).
    + reflexivity.
    + constructor.
    + constructor.
    + by vm_compute.
Defined.

Lemma C10_answer_is_a_catalog_display_name_witness :
  exists model_id data,
    (model_id, data) ∈ mistral_catalog
    /\ model_name data = Some (py "Mistral 7B Instruct")
    /\ _normalize (py "Mistral 7B Instruct") <> [].
Proof.
  apply (C10_answer_is_a_catalog_display_name enough_memory ascii_digits_only
           (py "/models/mistral-7b-instruct.Q4_K_M.gguf")
           (Some (gguf_header 0)) mistral_catalog).
  - vm_compute. reflexivity.
  - discriminate.
Defined.

(** C2 fails for the identifier. The file has no metadata entry and its name
    is [---.gguf]: the fallback identifier ["---"] is not empty, so it is
    kept, and its normal form is empty. [_get_similarity] gives 0, but the
    empty string is contained in every string: the containment test holds,
    the score is raised to 0.7 and the first catalog entry is returned. *)
Theorem C2_empty_identifier_gets_the_boost :
  fallback_identifier ascii_digits_only (py "/models/---.gguf") = py "---"
  /\ _normalize (py "---") = []
  /\ _get_similarity [] (py "mistral7binstruct") = 0%Q
  /\ scored_pairs mistral_catalog [[]] = [(py "Mistral 7B Instruct", 7 # 10)]
  /\ get_model_name enough_memory ascii_digits_only (py "/models/---.gguf")
                    (Some (gguf_header 0)) mistral_catalog
     = Ok (Some (py "Mistral 7B Instruct")).
Proof. vm_compute. repeat split; reflexivity. Qed.

(** ** The sequence matcher *)

Local Close Scope N_scope.
Local Open Scope nat_scope.

Lemma index_elements_lookup (b : str) (i : nat) (b2j : gmap N (list nat)) (x : N) :
  b2j_get (index_elements b i b2j) x = b2j_get b2j x ++ positions x b i.
Proof.
  unfold b2j_get. revert i b2j.
  induction b as [|elt b IH]; intros i b2j; cbn [index_elements positions].
  - by rewrite app_nil_r.
  - rewrite IH. destruct (N.eqb_spec elt x) as [->|Hne].
    + rewrite lookup_insert_eq. cbn. by rewrite <- app_assoc.
    + by rewrite lookup_insert_ne.
Qed.

(** An element of [b] is looked up to all its indices, or to none when it is
    one of the popular elements of a long [b]. *)
Lemma chain_b_lookup (b : str) (x : N) :
  b2j_get (chain_b b) x = [] \/ b2j_get (chain_b b) x = positions x b 0.
Proof.
  pose proof (index_elements_lookup b 0 ∅ x) as Hall.
  unfold b2j_get in *. rewrite lookup_empty in Hall. cbn in Hall.
  unfold chain_b. destruct (200 <=? length b); [|by right].
  rewrite map_lookup_filter.
  destruct (index_elements b 0 ∅ !! x) as [l|]; cbn in *; [|by left].
  case_guard; cbn; [by right|by left].
Qed.

Lemma positions_spec (x : N) (b : str) (i j : nat) :
  j ∈ positions x b i <-> i <= j /\ b !! (j - i) = Some x.
Proof.
  revert i. induction b as [|y b IH]; intros i; cbn [positions].
  - rewrite elem_of_nil, lookup_nil. split; [done|by intros [_ ?]].
  - assert (j ∈ positions x b (S i) <-> i < j /\ (y :: b) !! (j - i) = Some x)
      as IH'.
    { rewrite IH. split.
      - intros [Hle Hl]. split; [lia|].
        replace (j - i) with (S (j - S i)) by lia. done.
      - intros [Hlt Hl]. split; [lia|].
        replace (j - i) with (S (j - S i)) in Hl by lia. done. }
    destruct (N.eqb_spec y x) as [->|Hne].
    + rewrite elem_of_cons, IH'. split.
      * intros [->|[? ?]]; [|split; [lia|done]].
        split; [done|]. by rewrite Nat.sub_diag.
      * intros [Hle Hl]. destruct (decide (j = i)) as [->|]; [by left|].
        right. split; [lia|done].
    + rewrite IH'. split; [intros [? ?]; split; [lia|done]|].
      intros [Hle Hl]. split; [|done].
      destruct (decide (j = i)) as [->|]; [|lia].
      rewrite Nat.sub_diag in Hl. cbn in Hl. congruence.
Qed.

Lemma positions_lower_bound (x : N) (b : str) (i : nat) :
  Forall (fun j => i <= j) (positions x b i).
Proof.
  apply Forall_forall. intros j Hj. by apply positions_spec in Hj as [? _].
Qed.

Lemma positions_increasing (x : N) (b : str) (i : nat) :
  increasing (positions x b i).
Proof.
  revert i. induction b as [|y b IH]; intros i; cbn [positions];
    [constructor|].
  destruct (y =? x)%N; [|apply IH].
  constructor; [|apply IH].
  eapply Forall_impl; [apply positions_lower_bound|]. cbn. lia.
Qed.

(** *** The total of the matched sizes *)

Lemma sum_sizes_cons (x : Match) (l : list Match) :
  sum_sizes (x :: l) = m_size x + sum_sizes l.
Proof. reflexivity. Qed.

Lemma sum_sizes_app (l1 l2 : list Match) :
  sum_sizes (l1 ++ l2) = sum_sizes l1 + sum_sizes l2.
Proof.
  induction l1 as [|x l1 IH]; [done|].
  rewrite <- app_comm_cons, !sum_sizes_cons, IH. lia.
Qed.

Lemma sum_sizes_insert_sorted (x : Match) (l : list Match) :
  sum_sizes (insert_sorted x l) = m_size x + sum_sizes l.
Proof.
  induction l as [|y l IH]; [done|]. cbn [insert_sorted].
  destruct (Match_leb x y); [done|].
  rewrite !sum_sizes_cons, IH. lia.
Qed.

Lemma sum_sizes_sort_blocks (l : list Match) :
  sum_sizes (sort_blocks l) = sum_sizes l.
Proof.
  unfold sort_blocks. induction l as [|x l IH]; cbn [foldr]; [done|].
  by rewrite sum_sizes_insert_sorted, IH, sum_sizes_cons.
Qed.

Lemma sum_sizes_collapse (blocks : list Match) (i1 j1 k1 : nat)
      (non_adjacent : list Match) :
  sum_sizes (collapse blocks i1 j1 k1 non_adjacent)
  = sum_sizes non_adjacent + k1 + sum_sizes blocks.
Proof.
  revert i1 j1 k1 non_adjacent.
  induction blocks as [|x blocks IH]; intros i1 j1 k1 acc; cbn [collapse].
  - change (sum_sizes []) with 0.
    destruct (Nat.eqb_spec k1 0) as [->|_]; [lia|].
    rewrite sum_sizes_app, sum_sizes_cons. cbn [m_size].
    change (sum_sizes []) with 0. lia.
  - rewrite sum_sizes_cons. destruct (_ && _); rewrite IH; [lia|].
    destruct (Nat.eqb_spec k1 0) as [->|_]; [lia|].
    rewrite sum_sizes_app, sum_sizes_cons. cbn [m_size].
    change (sum_sizes []) with 0. lia.
Qed.

(** Sorting the blocks and merging adjacent ones does not change how much
    is matched: [ratio] only depends on the blocks found by the loop. *)
Lemma ratio_raw_blocks (a b : str) :
  ratio a b
  = _calculate_ratio (sum_sizes (raw_blocks a b)) (length a + length b).
Proof.
  unfold ratio, get_matching_blocks.
  rewrite sum_sizes_app, sum_sizes_collapse, sum_sizes_sort_blocks.
  f_equal. rewrite sum_sizes_cons. cbn [m_size].
  change (sum_sizes []) with 0. lia.
Qed.

(** *** Where [find_longest_match] finds its block *)

Section Bounds.

Variables (a b : str) (b2j : gmap N (list nat)).

Lemma j2len_get_bound (j2len : gmap nat nat) (bound j : nat) :
  map_Forall (fun _ v => v <= bound) j2len -> j2len_get j2len j <= bound.
Proof.
  intros Hall. destruct j as [|j]; cbn; [lia|].
  destruct (j2len !! j) as [v|] eqn:E; cbn; [|lia]. by eapply Hall.
Qed.

Lemma row_loop_bounds (alo ahi i blo bhi : nat) (j2len : gmap nat nat)
      (js : list nat) (newj2len : gmap nat nat) (best : Match) :
  alo <= i < ahi ->
  map_Forall (fun _ v => v <= i - alo) j2len ->
  map_Forall (fun _ v => v <= S i - alo) newj2len ->
  alo <= m_a best /\ m_a best + m_size best <= ahi ->
  let '(newj2len', best') := row_loop i blo bhi j2len js newj2len best in
  map_Forall (fun _ v => v <= S i - alo) newj2len'
  /\ alo <= m_a best' /\ m_a best' + m_size best' <= ahi.
Proof.
  intros Hi Hprev. revert newj2len best.
  induction js as [|j js IH]; intros newj2len best Hnew Hbest;
    cbn [row_loop]; [done|].
  destruct (j <? blo); [by apply IH|].
  destruct (bhi <=? j); [done|].
  pose proof (j2len_get_bound j2len (i - alo) j Hprev) as Hk.
  apply IH.
  - apply map_Forall_insert_2; [lia|done].
  - destruct (m_size best <? j2len_get j2len j + 1); [|done].
    cbn [m_a m_size]. lia.
Qed.

Lemma rows_bounds (alo ahi blo bhi i len : nat) (j2len : gmap nat nat)
      (best : Match) :
  alo <= i -> i + len <= ahi ->
  map_Forall (fun _ v => v <= i - alo) j2len ->
  alo <= m_a best /\ m_a best + m_size best <= ahi ->
  let best' := rows a b2j blo bhi (seq i len) j2len best in
  alo <= m_a best' /\ m_a best' + m_size best' <= ahi.
Proof.
  revert i j2len best. induction len as [|len IH];
    intros i j2len best Hi Hlen Hprev Hbest; cbn [seq rows]; [done|].
  match goal with
  | |- context [row_loop i blo bhi j2len ?js ∅ best] =>
      pose proof (row_loop_bounds alo ahi i blo bhi j2len js ∅ best) as Hrow;
        destruct (row_loop i blo bhi j2len js ∅ best) as [newj2len best']
  end.
  destruct Hrow as (Hnew & Hbest'); [lia|done|apply map_Forall_empty|done|].
  apply IH; [lia|lia| |done].
  exact Hnew.
Qed.

Lemma extend_left_bounds (alo blo : nat) (want_junk : bool)
      (besti bestj bestsize : nat) :
  alo <= besti ->
  let m := extend_left a b alo blo want_junk besti bestj bestsize in
  alo <= m_a m /\ m_a m + m_size m = besti + bestsize.
Proof.
  revert bestj bestsize. induction besti as [|i IH]; intros bestj bestsize Hle.
  - cbn. lia.
  - cbn [extend_left]. destruct bestj as [|j]; [cbn; lia|].
    destruct (_ && _) eqn:E; [|cbn; lia].
    assert (alo <= i) as Hi.
    { apply andb_prop in E as [E _]. apply andb_prop in E as [E _].
      apply andb_prop in E as [E _]. apply Nat.ltb_lt in E. lia. }
    destruct (IH j (S bestsize) Hi) as [? ?]. split; [done|lia].
Qed.

Lemma extend_right_bounds (ahi bhi : nat) (want_junk : bool)
      (fuel besti bestj bestsize : nat) :
  besti + bestsize <= ahi ->
  let m := extend_right a b ahi bhi want_junk fuel besti bestj bestsize in
  m_a m = besti /\ m_a m + m_size m <= ahi.
Proof.
  revert bestsize. induction fuel as [|fuel IH]; intros bestsize Hle;
    cbn [extend_right]; [cbn; lia|].
  destruct (_ && _) eqn:E; [|cbn; lia].
  apply IH.
  apply andb_prop in E as [E _]. apply andb_prop in E as [E _].
  apply andb_prop in E as [E _]. apply Nat.ltb_lt in E. lia.
Qed.

Lemma extend_bounds (alo ahi blo bhi : nat) (want_junk : bool) (m : Match) :
  alo <= m_a m -> m_a m + m_size m <= ahi ->
  let m' := extend a b alo ahi blo bhi want_junk m in
  alo <= m_a m' /\ m_a m' + m_size m' <= ahi.
Proof.
  intros Hlo Hhi. unfold extend.
  destruct (extend_left_bounds alo blo want_junk (m_a m) (m_b m) (m_size m) Hlo)
    as [Hlo' Heq].
  match goal with
  | |- context [extend_right a b ahi bhi want_junk ?f ?i ?j ?k] =>
      destruct (extend_right_bounds ahi bhi want_junk f i j k) as [E ?];
        [lia|]
  end.
  cbn zeta. split; [|done]. by rewrite E.
Qed.

(** The block lies inside the range of [a] it was searched in. *)
Lemma find_longest_match_bounds (alo ahi blo bhi : nat) :
  alo <= ahi ->
  let x := find_longest_match a b b2j alo ahi blo bhi in
  alo <= m_a x /\ m_a x + m_size x <= ahi.
Proof.
  intros Hle. unfold find_longest_match.
  pose proof (rows_bounds alo ahi blo bhi alo (ahi - alo) ∅ (mkMatch alo blo 0))
    as Hrows.
  destruct Hrows as [H1 H2];
    [lia|lia|apply map_Forall_empty|cbn; lia|].
  destruct (extend_bounds alo ahi blo bhi false _ H1 H2) as [H3 H4].
  by apply extend_bounds.
Qed.

(** The loop of [get_matching_blocks] empties its queue. *)
Lemma blocks_loop_empties_queue (fuel : nat)
      (queue : list (nat * nat * nat * nat)) (matching_blocks : list Match) :
  Forall (fun '(alo, ahi, _, _) => alo <= ahi) queue ->
  queue_measure queue <= fuel ->
  snd (blocks_loop fuel a b b2j queue matching_blocks) = [].
Proof.
  revert queue matching_blocks.
  induction fuel as [|fuel IH]; intros queue blocks Hq Hm.
  - destruct queue as [|[[[alo ahi] blo] bhi] queue]; [done|].
    cbn in Hm. lia.
  - destruct queue as [|[[[alo ahi] blo] bhi] queue]; [done|].
    cbn [blocks_loop]. inversion_clear Hq as [|? ? Hle Hq'].
    destruct (find_longest_match_bounds alo ahi blo bhi Hle) as [Hlo Hhi].
    cbn [queue_measure foldr] in Hm. fold (queue_measure queue) in Hm.
    set (x := find_longest_match a b b2j alo ahi blo bhi) in *.
    cbv zeta. cbn iota beta.
    destruct (Nat.eqb_spec (m_size x) 0) as [_|Hk]; [apply IH; [done|lia]|].
    apply IH.
    + destruct (_ && _) eqn:E1; destruct (_ && _) eqn:E2 in |- *;
        repeat constructor; try done; lia.
    + destruct (Nat.ltb_spec alo (m_a x)), (Nat.ltb_spec (m_a x + m_size x) ahi);
        cbn [andb];
        repeat match goal with
               | |- context [if ?c then _ else _] => destruct c
               end;
        cbn [queue_measure foldr]; fold (queue_measure queue); lia.
Qed.

End Bounds.

(** The number of turns [raw_blocks] allows is enough: the loop stops
    because its queue is empty. *)
Lemma blocks_loop_done (a b : str) :
  snd (blocks_loop (2 * length a + 1) a b (chain_b b)
                   [(0, length a, 0, length b)] []) = [].
Proof.
  apply blocks_loop_empties_queue.
  - repeat constructor. lia.
  - cbn. lia.
Qed.

(** *** Passes that extend nothing *)

Lemma extend_left_at_start (a b : str) (alo blo : nat) (want_junk : bool)
      (bestj bestsize : nat) :
  extend_left a b alo blo want_junk alo bestj bestsize
  = mkMatch alo bestj bestsize.
Proof.
  destruct alo as [|i], bestj as [|j]; cbn [extend_left]; try done.
  by rewrite Nat.ltb_irrefl.
Qed.

Lemma extend_right_stops (a b : str) (ahi bhi : nat) (want_junk : bool)
      (fuel besti bestj bestsize : nat) :
  Bool.eqb (junk_at b (bestj + bestsize)) want_junk
  && elt_eqb a (besti + bestsize) b (bestj + bestsize) = false ->
  extend_right a b ahi bhi want_junk fuel besti bestj bestsize
  = mkMatch besti bestj bestsize.
Proof.
  intros H. destruct fuel as [|fuel]; cbn [extend_right]; [done|].
  by rewrite <- !andb_assoc, H, !andb_false_r.
Qed.

(** The second loop is never cut short: any number of turns from
    [ahi - (besti + bestsize)] on gives the same block. *)
Lemma extend_right_fuel (a b : str) (ahi bhi : nat) (want_junk : bool)
      (fuel fuel' besti bestj bestsize : nat) :
  ahi - (besti + bestsize) <= fuel -> ahi - (besti + bestsize) <= fuel' ->
  extend_right a b ahi bhi want_junk fuel besti bestj bestsize
  = extend_right a b ahi bhi want_junk fuel' besti bestj bestsize.
Proof.
  revert fuel' bestsize. induction fuel as [|fuel IH];
    intros fuel' bestsize Hf Hf'.
  - destruct fuel' as [|fuel']; cbn [extend_right]; [done|].
    destruct (Nat.ltb_spec (besti + bestsize) ahi) as [?|_]; [lia|done].
  - cbn [extend_right].
    destruct (Nat.ltb_spec (besti + bestsize) ahi) as [Hlt|Hge].
    + destruct fuel' as [|fuel']; [lia|]. cbn [extend_right].
      destruct (Nat.ltb_spec (besti + bestsize) ahi) as [_|?]; [|lia].
      destruct (_ && _); [|done]. apply IH; lia.
    + cbn [andb]. destruct fuel' as [|fuel']; cbn [extend_right]; [done|].
      destruct (Nat.ltb_spec (besti + bestsize) ahi) as [?|_]; [lia|done].
Qed.

Lemma junk_at_false (b : str) (j : nat) : junk_at b j = false.
Proof. unfold junk_at. by destruct (b !! j). Qed.

(** Nothing is junk, so the two passes over junk leave the block alone. *)
Lemma extend_junk (a b : str) (alo ahi blo bhi : nat) (m : Match) :
  extend a b alo ahi blo bhi true m = m.
Proof.
  unfold extend.
  assert (extend_left a b alo blo true (m_a m) (m_b m) (m_size m) = m) as ->.
  { destruct m as [i j k]. cbn [m_a m_b m_size].
    destruct i as [|i], j as [|j]; cbn [extend_left]; try done.
    by rewrite junk_at_false, !andb_false_r. }
  rewrite extend_right_stops; [by destruct m|].
  by rewrite junk_at_false.
Qed.

(** *** Strings without a common character *)

Section Disjoint.

Variables a b : str.
Hypothesis Hdisjoint : disjoint_strings a b.

Lemma disjoint_elt_eqb (i j : nat) : elt_eqb a i b j = false.
Proof.
  unfold elt_eqb.
  destruct (a !! i) as [x|] eqn:Ea; [|done].
  destruct (b !! j) as [y|] eqn:Eb; [|done].
  apply N.eqb_neq. intros ->.
  apply (Hdisjoint y); by eapply list_elem_of_lookup_2.
Qed.

Lemma disjoint_no_candidates (i : nat) :
  match a !! i with
  | Some x => default [] (chain_b b !! x)
  | None => []
  end = [].
Proof.
  destruct (a !! i) as [x|] eqn:Ea; [|done].
  destruct (chain_b_lookup b x) as [E|E]; [exact E|].
  unfold b2j_get in E. rewrite E.
  destruct (positions x b 0) as [|j js] eqn:Ep; [done|].
  assert (j ∈ positions x b 0) as Hj by (rewrite Ep; apply list_elem_of_here).
  apply positions_spec in Hj as [_ Hj]. exfalso.
  apply (Hdisjoint x); by eapply list_elem_of_lookup_2.
Qed.

Lemma disjoint_rows (blo bhi : nat) (range : list nat)
      (j2len : gmap nat nat) (best : Match) :
  rows a (chain_b b) blo bhi range j2len best = best.
Proof.
  revert j2len. induction range as [|i range IH]; intros j2len; [done|].
  cbn [rows]. rewrite disjoint_no_candidates. cbn [row_loop]. apply IH.
Qed.

Lemma disjoint_find_longest_match (alo ahi blo bhi : nat) :
  find_longest_match a b (chain_b b) alo ahi blo bhi = mkMatch alo blo 0.
Proof.
  unfold find_longest_match. rewrite disjoint_rows, extend_junk.
  unfold extend. cbn [m_a m_b m_size]. rewrite extend_left_at_start.
  cbn [m_a m_b m_size]. apply extend_right_stops.
  by rewrite disjoint_elt_eqb, andb_false_r.
Qed.

Lemma disjoint_raw_blocks : raw_blocks a b = [].
Proof.
  unfold raw_blocks. rewrite Nat.add_1_r. cbn [blocks_loop].
  rewrite disjoint_find_longest_match. cbn.
  by destruct (length a + (length a + 0)).
Qed.

End Disjoint.

Lemma disjoint_strings_sym (a b : str) :
  disjoint_strings a b -> disjoint_strings b a.
Proof. intros H x Hb Ha. by apply (H x). Qed.

(** Nothing matched, and something to match: the score is zero. *)
Lemma calculate_ratio_nothing (length : nat) :
  length <> 0 -> (_calculate_ratio 0 length == 0)%Q.
Proof. destruct length; [done|]. intros _. reflexivity. Qed.

Lemma disjoint_similarity (a b : str) :
  disjoint_strings a b -> (_get_similarity a b == 0)%Q.
Proof.
  intros H. destruct a as [|x a]; [reflexivity|].
  destruct b as [|y b]; [reflexivity|].
  cbn [_get_similarity]. rewrite ratio_raw_blocks, disjoint_raw_blocks by done.
  apply calculate_ratio_nothing. cbn. lia.
Qed.

(** *** A string matched against itself *)

Lemma increasing_app_lt (done_ rest : list nat) (i j : nat) :
  increasing (done_ ++ j :: rest) -> i ∈ done_ ++ j :: rest -> i < j ->
  i ∈ done_.
Proof.
  induction done_ as [|d done_ IH]; cbn [app]; intros Hinc Hin Hlt.
  - inversion_clear Hinc as [|? ? Hall _].
    apply elem_of_cons in Hin as [->|Hin]; [lia|].
    rewrite Forall_forall in Hall. specialize (Hall i Hin). lia.
  - inversion_clear Hinc as [|? ? _ Hinc'].
    apply elem_of_cons in Hin as [->|Hin]; [apply list_elem_of_here|].
    apply list_elem_of_further. by apply IH.
Qed.

Section SelfMatch.

Variable s : str.

Local Abbreviation candidates := (candidates s).
Local Abbreviation run := (run s).
Local Abbreviation row_above := (row_above s).
Local Abbreviation diagonal_best := (diagonal_best s).

Lemma candidates_cases (i : nat) (x : N) :
  s !! i = Some x -> candidates i = [] \/ candidates i = positions x s 0.
Proof. unfold candidates. intros ->. apply chain_b_lookup. Qed.

Lemma candidates_elem (i j : nat) :
  j ∈ candidates i ->
  exists x, s !! i = Some x /\ s !! j = Some x
            /\ candidates i = positions x s 0.
Proof.
  intros Hj. destruct (s !! i) as [x|] eqn:Ei.
  - destruct (candidates_cases i x Ei) as [E|E]; rewrite E in Hj.
    + by apply elem_of_nil in Hj.
    + exists x. apply positions_spec in Hj as [_ Hj].
      rewrite Nat.sub_0_r in Hj. done.
  - unfold candidates in Hj. rewrite Ei in Hj. by apply elem_of_nil in Hj.
Qed.

Lemma candidates_lt (i j : nat) : j ∈ candidates i -> i < length s /\ j < length s.
Proof.
  intros (x & Hi & Hj & _)%candidates_elem.
  split; by eapply lookup_lt_Some.
Qed.

Lemma candidates_same (i j : nat) :
  j ∈ candidates i -> candidates j = candidates i.
Proof.
  intros (x & Hi & Hj & _)%candidates_elem. unfold candidates.
  by rewrite Hi, Hj.
Qed.

Lemma candidates_diagonal (i j : nat) : j ∈ candidates i -> i ∈ candidates i.
Proof.
  intros (x & Hi & Hj & E)%candidates_elem. rewrite E.
  apply positions_spec. rewrite Nat.sub_0_r. split; [lia|done].
Qed.

Lemma candidates_sym (i j : nat) : j ∈ candidates i -> i ∈ candidates j.
Proof.
  intros Hj. rewrite (candidates_same i j Hj). by eapply candidates_diagonal.
Qed.

Lemma candidates_increasing (i : nat) : increasing (candidates i).
Proof.
  destruct (s !! i) as [x|] eqn:Ei.
  - destruct (candidates_cases i x Ei) as [-> | ->];
      [constructor|apply positions_increasing].
  - unfold candidates. rewrite Ei. constructor.
Qed.

Lemma run_sym (i j : nat) : run i j = run j i.
Proof.
  revert j. induction i as [|i IH]; intros j.
  - destruct j as [|j]; [done|]. cbn [run].
    do 2 case_bool_decide; try done.
    + exfalso. eauto using candidates_sym.
    + exfalso. eauto using candidates_sym.
  - destruct j as [|j]; cbn [run].
    + do 2 case_bool_decide; try done; exfalso; eauto using candidates_sym.
    + do 2 case_bool_decide; try done.
      * by rewrite IH.
      * exfalso. eauto using candidates_sym.
      * exfalso. eauto using candidates_sym.
Qed.

Lemma run_diagonal (i j : nat) : run i j <= run i i.
Proof.
  revert j. induction i as [|i IH]; intros j; cbn [run].
  - case_bool_decide as Hj; [|lia].
    rewrite bool_decide_eq_true_2 by (by eapply candidates_diagonal). lia.
  - case_bool_decide as Hj; [|lia].
    rewrite bool_decide_eq_true_2 by (by eapply candidates_diagonal).
    destruct j as [|j]; [lia|]. specialize (IH j). lia.
Qed.

Lemma run_le (i j : nat) : run i j <= S i.
Proof.
  revert j. induction i as [|i IH]; intros j; cbn [run].
  - case_bool_decide; lia.
  - case_bool_decide; [|lia]. destruct j as [|j]; [lia|].
    specialize (IH j). lia.
Qed.

Lemma run_outside (i j : nat) : j ∉ candidates i -> run i j = 0.
Proof.
  intros H. destruct i; cbn [run]; by rewrite bool_decide_eq_false_2.
Qed.

Lemma run_inside (i j : nat) :
  j ∈ candidates i ->
  run i j = S (match j with O => 0 | S j' => row_above i j' end).
Proof.
  intros H. destruct i as [|i]; cbn [run];
    rewrite bool_decide_eq_true_2 by done; by destruct j.
Qed.

Lemma row_loop_self (i : nat) (j2len : gmap nat nat) (done_ rest : list nat)
      (newj2len : gmap nat nat) (best : Match) :
  candidates i = done_ ++ rest ->
  (forall j, default 0 (j2len !! j) = row_above i j) ->
  (forall j, default 0 (newj2len !! j)
             = if bool_decide (j ∈ done_) then run i j else 0) ->
  diagonal_best i done_ best ->
  let '(newj2len', best') :=
      row_loop i 0 (length s) j2len rest newj2len best in
  (forall j, default 0 (newj2len' !! j) = row_above (S i) j)
  /\ diagonal_best (S i) [] best'.
Proof.
  revert done_ newj2len best.
  induction rest as [|j rest IH]; intros done_ newj2len best Hcand Hprev Hnew Hbest.
  - cbn [row_loop]. rewrite app_nil_r in Hcand. split.
    + intros j. rewrite Hnew. cbn [row_above]. case_bool_decide as Hj; [done|].
      symmetry. apply run_outside. by rewrite Hcand.
    + destruct Hbest as (Hd & Hb & Hrows & Hrow). repeat split; try done.
      * intros i' j' Hi'. destruct (decide (i' = i)) as [->|]; [|apply Hrows; lia].
        destruct (decide (j' ∈ done_)); [by apply Hrow|].
        rewrite run_outside; [lia|]. by rewrite Hcand.
      * intros j' Hj'. by apply elem_of_nil in Hj'.
  - assert (j ∈ candidates i) as Hj.
    { rewrite Hcand. apply elem_of_app. right. apply list_elem_of_here. }
    destruct (candidates_lt i j Hj) as [Hi Hjn].
    cbn [row_loop].
    destruct (Nat.ltb_spec j 0) as [?|_]; [lia|].
    destruct (Nat.leb_spec (length s) j) as [?|_]; [lia|].
    assert (j2len_get j2len j + 1 = run i j) as Hk.
    { rewrite run_inside by done. unfold j2len_get.
      destruct j as [|j']; [lia|]. rewrite Hprev. lia. }
    rewrite Hk. apply (IH (done_ ++ [j])).
    + by rewrite <- app_assoc.
    + done.
    + intros j'. destruct (decide (j' = j)) as [->|Hne].
      * rewrite lookup_insert_eq. cbn.
        rewrite bool_decide_eq_true_2; [done|].
        apply elem_of_app. right. apply list_elem_of_here.
      * rewrite lookup_insert_ne by done. rewrite Hnew.
        rewrite (bool_decide_ext (j' ∈ done_ ++ [j]) (j' ∈ done_)); [done|].
        rewrite elem_of_app, list_elem_of_singleton. tauto.
    + destruct Hbest as (Hd & Hb & Hrows & Hrow).
      destruct (Nat.ltb_spec (m_size best) (run i j)) as [Hlt|Hge].
      * assert (j = i) as ->.
        { destruct (Nat.lt_trichotomy j i) as [Hji|[?|Hij]]; [|done|]; exfalso.
          - specialize (Hrows j i Hji). rewrite run_sym in Hrows. lia.
          - pose proof (run_diagonal i j) as Hdiag.
            assert (i ∈ done_) as Hin.
            { apply (increasing_app_lt done_ rest i j); [| |done].
              - rewrite <- Hcand. apply candidates_increasing.
              - rewrite <- Hcand. apply (candidates_diagonal i j Hj). }
            specialize (Hrow i Hin). lia. }
        pose proof (run_le i i). repeat split; cbn [m_a m_b m_size].
        -- lia.
        -- intros i' j' Hi'. specialize (Hrows i' j' Hi'). lia.
        -- intros j' [Hj'| ->%list_elem_of_singleton]%elem_of_app; [|done].
           specialize (Hrow j' Hj'). lia.
      * repeat split; try done.
        intros j' [Hj'| ->%list_elem_of_singleton]%elem_of_app; [|done].
        by apply Hrow.
Qed.

Lemma rows_self (i len : nat) (j2len : gmap nat nat) (best : Match) :
  i + len = length s ->
  (forall j, default 0 (j2len !! j) = row_above i j) ->
  diagonal_best i [] best ->
  let best' := rows s (chain_b s) 0 (length s) (seq i len) j2len best in
  m_a best' = m_b best' /\ m_a best' + m_size best' <= length s.
Proof.
  revert i j2len best. induction len as [|len IH];
    intros i j2len best Hlen Hprev Hbest; cbn [seq rows].
  - by destruct Hbest as (? & ? & _).
  - fold (candidates i).
    pose proof (row_loop_self i j2len [] (candidates i) ∅ best eq_refl Hprev)
      as Hrow.
    destruct (row_loop i 0 (length s) j2len (candidates i) ∅ best)
      as [newj2len best'].
    destruct Hrow as [Hnew Hbest']; [|done|].
    { intros j. by rewrite lookup_empty. }
    apply IH; [lia|done|done].
Qed.

Lemma extend_left_self (p : nat) (bestsize : nat) :
  p <= length s ->
  extend_left s s 0 0 false p p bestsize = mkMatch 0 0 (p + bestsize).
Proof.
  revert bestsize. induction p as [|p IH]; intros bestsize Hp; [done|].
  cbn [extend_left]. rewrite junk_at_false. unfold elt_eqb.
  destruct (lookup_lt_is_Some_2 s p) as [x ->]; [lia|].
  rewrite N.eqb_refl. cbn [Nat.ltb Nat.leb andb Bool.eqb].
  rewrite IH by lia. f_equal. lia.
Qed.

Lemma extend_right_self (fuel bestsize : nat) :
  bestsize + fuel <= length s ->
  extend_right s s (length s) (length s) false fuel 0 0 bestsize
  = mkMatch 0 0 (bestsize + fuel).
Proof.
  revert bestsize. induction fuel as [|fuel IH]; intros bestsize Hle;
    cbn [extend_right]; [f_equal; lia|].
  rewrite junk_at_false. unfold elt_eqb. cbn [Nat.add].
  destruct (lookup_lt_is_Some_2 s bestsize) as [x ->]; [lia|].
  rewrite N.eqb_refl.
  destruct (Nat.ltb_spec bestsize (length s)) as [_|?]; [|lia].
  cbn [andb Bool.eqb]. rewrite IH by lia. f_equal. lia.
Qed.

(** The longest block of a string with itself is the whole string. *)
Lemma find_longest_match_self :
  find_longest_match s s (chain_b s) 0 (length s) 0 (length s)
  = mkMatch 0 0 (length s).
Proof.
  unfold find_longest_match. rewrite extend_junk, Nat.sub_0_r.
  pose proof (rows_self 0 (length s) ∅ (mkMatch 0 0 0)) as Hrows.
  destruct Hrows as [Hd Hb]; [done| | |].
  { intros j. by rewrite lookup_empty. }
  { repeat split; cbn [m_a m_b m_size]; try lia.
    intros j' Hj'. by apply elem_of_nil in Hj'. }
  set (best := rows s (chain_b s) 0 (length s) (seq 0 (length s)) ∅
                    (mkMatch 0 0 0)) in *.
  unfold extend. rewrite <- Hd, extend_left_self by lia.
  cbn [m_a m_b m_size]. rewrite extend_right_self by lia. f_equal. lia.
Qed.

Lemma raw_blocks_self : s <> [] -> raw_blocks s s = [mkMatch 0 0 (length s)].
Proof.
  intros Hne. unfold raw_blocks. rewrite Nat.add_1_r. cbn [blocks_loop].
  rewrite find_longest_match_self. cbn [m_a m_b m_size].
  destruct (Nat.eqb_spec (length s) 0) as [E|_].
  { by apply length_zero_iff_nil in E. }
  cbn [Nat.add]. rewrite !Nat.ltb_irrefl. cbn [andb].
  by destruct (2 * length s).
Qed.

Lemma ratio_self : s <> [] -> (ratio s s == 1)%Q.
Proof.
  intros Hne. rewrite ratio_raw_blocks, raw_blocks_self by done.
  rewrite sum_sizes_cons. cbn [m_size]. change (sum_sizes []) with 0.
  unfold _calculate_ratio.
  destruct (length s + length s) as [|m] eqn:E.
  { destruct s; [done|cbn in E; lia]. }
  unfold Qeq. cbn [Qnum Qden].
  rewrite Z.mul_1_r, Z.mul_1_l, Nat.add_0_r.
  replace (2 * length s) with (S m) by lia.
  rewrite <- positive_nat_Z, Nat2Pos.id by done. done.
Qed.

End SelfMatch.

(** ** The claims about the similarity *)

Lemma only_sentinel_similarity (a b : str) :
  get_matching_blocks a b = [mkMatch (length a) (length b) 0] ->
  (_get_similarity a b == 0)%Q.
Proof.
  intros H. destruct a as [|x a]; [reflexivity|].
  destruct b as [|y b]; [reflexivity|].
  cbn [_get_similarity]. unfold ratio. rewrite H.
  apply calculate_ratio_nothing. cbn. lia.
Qed.

Lemma disjoint_matching_blocks (a b : str) :
  disjoint_strings a b ->
  get_matching_blocks a b = [mkMatch (length a) (length b) 0].
Proof.
  intros H. unfold get_matching_blocks. by rewrite disjoint_raw_blocks.
Qed.

(** C4, as stated, fails: ["tide"] scores 1/4 against ["diet"], and ["diet"]
    scores 1/2 against ["tide"]. The matcher looks for the longest block
    that starts earliest in its first argument, so the blocks it finds
    depend on the order of the arguments. *)
Lemma C4_similarity_depends_on_order :
  (_get_similarity (py "tide") (py "diet") == 1 # 4)%Q
  /\ (_get_similarity (py "diet") (py "tide") == 1 # 2)%Q
  /\ ~ (_get_similarity (py "tide") (py "diet")
        == _get_similarity (py "diet") (py "tide"))%Q.
Proof. vm_compute. repeat split; discriminate. Qed.

(** C4, amended: the score does not depend on the order of the arguments
    when one of the strings is empty, when the strings are equal, or when
    they have no character in common. *)
Theorem C4_similarity_symmetric_when (a b : str) :
  a = [] \/ b = [] \/ a = b \/ disjoint_strings a b ->
  (_get_similarity a b == _get_similarity b a)%Q.
Proof.
  intros [->|[->|[->|H]]].
  - by destruct b.
  - by destruct a.
  - reflexivity.
  - rewrite (disjoint_similarity a b H).
    by rewrite (disjoint_similarity b a (disjoint_strings_sym a b H)).
Qed.

Lemma abc_xyz_disjoint : disjoint_strings (py "abc") (py "xyz").
Proof.
  intros x Ha Hb.
  change (py "abc") with [97; 98; 99]%N in Ha.
  change (py "xyz") with [120; 121; 122]%N in Hb.
  rewrite !elem_of_cons, elem_of_nil in Ha, Hb. lia.
Qed.

Lemma C4_similarity_symmetric_when_witness :
  (_get_similarity (py "abc") (py "xyz")
   == _get_similarity (py "xyz") (py "abc"))%Q.
Proof.
  apply C4_similarity_symmetric_when.
  right. right. right. exact abc_xyz_disjoint.
Defined.

(** C5: a non-empty string scores 1 against itself; every string scores 0
    against the empty string; and two strings for which the matcher finds no
    block, as it does when they have no character in common, score 0. *)
Theorem C5_similarity_of_same_empty_and_unrelated_strings :
  (forall s : str, s <> [] -> (_get_similarity s s == 1)%Q)
  /\ (forall s : str, _get_similarity s [] = 0%Q /\ _get_similarity [] s = 0%Q)
  /\ (forall a b : str,
         get_matching_blocks a b = [mkMatch (length a) (length b) 0] ->
         (_get_similarity a b == 0)%Q)
  /\ (forall a b : str,
         disjoint_strings a b ->
         get_matching_blocks a b = [mkMatch (length a) (length b) 0]).
Proof.
  split; [|split; [|split]].
  - intros s Hs. destruct s as [|x s]; [done|].
    cbn [_get_similarity]. by apply ratio_self.
  - intros s. by destruct s.
  - apply only_sentinel_similarity.
  - apply disjoint_matching_blocks.
Qed.

Lemma C5_similarity_of_same_empty_and_unrelated_strings_witness :
  (_get_similarity (py "mistral7binstruct") (py "mistral7binstruct") == 1)%Q
  /\ _get_similarity (py "llama2") [] = 0%Q
  /\ (_get_similarity (py "abc") (py "xyz") == 0)%Q.
Proof.
  destruct C5_similarity_of_same_empty_and_unrelated_strings
    as (Hsame & Hempty & Hnone & Hdisjoint).
  split; [|split].
  - apply Hsame. discriminate.
  - apply Hempty.
  - apply Hnone, Hdisjoint, abc_xyz_disjoint.
Defined.

(** ** Worked examples *)

Local Close Scope nat_scope.
Local Open Scope N_scope.

(** The second entry is [general.name]: the scan records both entries and
    stops there, 120 bytes into the file, without looking at the third. *)
Example metadata_extraction_stops_at_general_name :
  let blob := gguf_header 3
              ++ string_entry "general.architecture" "llama"
              ++ string_entry "general.name" "Mistral-7B-Instruct"
              ++ string_entry "general.file_type" "Q4" in
  GGUFMetadataReader enough_memory (Some blob)
  = (Ok {[ py "general.architecture" := Some (py "llama");
           py "general.name" := Some (py "Mistral-7B-Instruct") ]},
     Some (File blob 120 true)).
Proof. vm_compute. reflexivity. Qed.

(** No metadata entry: the file name gives the identifier, whose normal form
    is that of the catalog name. *)
Example end_to_end_fallback :
  get_model_name enough_memory ascii_digits_only
                 (py "/models/mistral-7b-instruct.Q4_K_M.gguf")
                 (Some (gguf_header 0)) mistral_catalog
  = Ok (Some (py "Mistral 7B Instruct"))
  /\ _normalize (py "mistral-7b-instruct.") = py "mistral7binstruct"
  /\ _normalize (py "Mistral 7B Instruct") = py "mistral7binstruct".
Proof. vm_compute. repeat split; reflexivity. Qed.

(** An empty catalog, an unreadable file, a file cut inside its header: the
    answer is the empty string. *)
Example end_to_end_no_match :
  get_model_name enough_memory ascii_digits_only (py "m.gguf")
                 (Some (gguf_header 0)) [] = Ok (Some [])
  /\ get_model_name enough_memory ascii_digits_only (py "m.gguf")
                    None mistral_catalog = Ok (Some [])
  /\ get_model_name enough_memory ascii_digits_only (py "mistral.gguf")
                    (Some (bytes_of "GGUF")) mistral_catalog = Ok (Some []).
Proof. vm_compute. repeat split; reflexivity. Qed.

(** The containment boost: ["llama2"] is contained in ["llama2chathf"]. *)
Example containment_boost :
  (boosted_score (py "llama2") (_normalize (py "llama2-chat-hf")) == 7 # 10)%Q
  /\ best_display_name [(py "id", ModelData (Some (py "llama2-chat-hf")))]
                       [py "llama2"]
     = Some (py "llama2-chat-hf").
Proof. vm_compute. split; reflexivity. Qed.

(** * Further properties *)

(** ** Normal forms *)

Lemma normalize_unfold (text : str) :
  _normalize text = strip_non_alnum (lower text).
Proof. by destruct text. Qed.

Lemma strip_non_alnum_alnum (text : str) :
  Forall (fun c => alnum c = true) (strip_non_alnum text).
Proof.
  unfold strip_non_alnum. induction text as [|c text IH]; cbn [List.filter];
    [constructor|].
  destruct (is_lower c || is_digit c) eqn:E; [|done]. by constructor.
Qed.

Lemma lower_char_alnum (c : N) : alnum c = true -> lower_char c = [c].
Proof.
  unfold alnum, is_lower, is_digit, lower_char, is_upper. intros H.
  destruct (N.leb_spec 65 c), (N.leb_spec c 90); cbn [andb];
    [exfalso; revert H; rewrite !orb_true_iff, !andb_true_iff, !N.leb_le; lia|..];
    (destruct (N.eqb_spec c 0x130) as [->|_]; [discriminate H|]);
    (destruct (N.eqb_spec c 0x212A) as [->|_]; [discriminate H|]); done.
Qed.

Lemma normalize_of_alnum (text : str) :
  Forall (fun c => alnum c = true) text -> _normalize text = text.
Proof.
  intros H. rewrite normalize_unfold. unfold lower, strip_non_alnum.
  induction H as [|c text Hc _ IH]; [done|].
  cbn [flat_map]. rewrite (lower_char_alnum c Hc). cbn [app List.filter].
  fold (alnum c). by rewrite Hc, IH.
Qed.

(** X1: a normal form holds nothing but the letters [a]-[z] and the digits
    [0]-[9]. *)
Theorem X1_normalize_keeps_lower_case_letters_and_digits (text : str) :
  Forall (fun c => is_lower c || is_digit c = true) (_normalize text).
Proof. rewrite normalize_unfold. apply strip_non_alnum_alnum. Qed.

(** X2: normalizing a normal form changes nothing. *)
Theorem X2_normalize_idempotent (text : str) :
  _normalize (_normalize text) = _normalize text.
Proof.
  apply normalize_of_alnum. rewrite normalize_unfold.
  apply strip_non_alnum_alnum.
Qed.

(** X3: the normal form of a concatenation is the concatenation of the
    normal forms: what is removed from a text does not depend on what stands
    around it. *)
Theorem X3_normalize_app (s t : str) :
  _normalize (s ++ t) = _normalize s ++ _normalize t.
Proof.
  rewrite !normalize_unfold. unfold lower, strip_non_alnum.
  by rewrite flat_map_app, List.filter_app.
Qed.

Lemma lower_char_ascii_upper (c : N) :
  strip_non_alnum (lower_char (ascii_upper c)) = strip_non_alnum (lower_char c).
Proof.
  unfold ascii_upper. destruct (is_lower c) eqn:E; [|done].
  rewrite (lower_char_alnum c) by (unfold alnum; by rewrite E).
  unfold is_lower in E. apply andb_true_iff in E as [E1 E2].
  apply N.leb_le in E1, E2.
  unfold lower_char, is_upper.
  destruct (N.leb_spec 65 (c - 32)); [|lia].
  destruct (N.leb_spec (c - 32) 90); [|lia].
  cbn [andb]. by replace (c - 32 + 32) with c by lia.
Qed.

(** X4: writing the ASCII letters of a text in upper case does not change
    its normal form. *)
Theorem X4_normalize_ignores_ascii_case (text : str) :
  _normalize (map ascii_upper text) = _normalize text.
Proof.
  rewrite !normalize_unfold. unfold lower.
  induction text as [|c text IH]; [done|].
  cbn [map flat_map]. unfold strip_non_alnum in *.
  rewrite !List.filter_app, IH. f_equal. apply lower_char_ascii_upper.
Qed.

(** ** More about the reader *)

Section ReaderMore.

Variable can_allocate : N -> bool.

Lemma remaining_after_read (f : file) (n : nat) :
  remaining (File (content f) (pos f + Nat.min n (length (content f) - pos f))
                  (closed f))
  = drop n (remaining f).
Proof.
  unfold remaining. cbn [content pos]. rewrite drop_drop.
  destruct (Nat.le_gt_cases n (length (content f) - pos f)) as [Hle|Hgt].
  - by rewrite Nat.min_l.
  - rewrite Nat.min_r by lia. rewrite !drop_ge; [done|lia|lia].
Qed.

Lemma read_string_field (f : file) (prefix payload rest : list byte) :
  remaining f = prefix ++ payload ++ rest ->
  length prefix = 8%nat ->
  le_decode prefix = N.of_nat (length payload) ->
  N.of_nat (length payload) < 2 ^ 63 ->
  can_allocate 8 = true ->
  can_allocate (N.of_nat (length payload)) = true ->
  _read_string can_allocate f
  = (decode payload,
     File (content f) (pos f + 8 + length payload) (closed f)).
Proof.
  intros Hrem Hpre Hlen Hsmall H8 Hpay.
  assert ((length (content f) - pos f)%nat
          = (8 + length payload + length rest)%nat) as Hleft.
  { unfold remaining in Hrem. apply (f_equal length) in Hrem.
    rewrite length_drop, !length_app in Hrem. lia. }
  unfold _read_string, bind.
  rewrite file_read_ok by (done || lia).
  change (N.to_nat 8) with 8%nat. rewrite Hrem.
  rewrite take_app_length' by done.
  unfold lift at 1, unpack_Q. rewrite Hpre. cbn [Nat.eqb]. rewrite Hlen.
  rewrite file_read_ok by done. rewrite Nat2N.id.
  rewrite remaining_after_read, Hrem, drop_app_length' by done.
  rewrite take_app_length. cbn [content pos closed]. unfold lift.
  f_equal. f_equal. lia.
Qed.

(** One turn of the loop, spelled out. *)
Lemma scan_step (n : nat) (metadata : gmap str (option str)) (f : file) :
  scan can_allocate (S n) metadata f
  = match _read_string can_allocate f with
    | (Raise _, f1) => scan can_allocate n metadata f1
    | (Ok key, f1) =>
      match file_read can_allocate 4 f1 with
      | (Raise e, f2) => (Raise e, f2)
      | (Ok bs, f2) =>
        match unpack_I bs with
        | Raise e => (Raise e, f2)
        | Ok value_type =>
          if value_type =? GGUFValueType_STRING then
            match _read_string can_allocate f2 with
            | (Raise e, f3) => (Raise e, f3)
            | (Ok value, f3) =>
              if str_eqb key general_name
              then (Ok (<[key := Some value]> metadata), f3)
              else scan can_allocate n (<[key := Some value]> metadata) f3
            end
          else scan can_allocate n metadata f2
        end
      end
    end.
Proof.
  cbn [scan]. destruct (_read_string can_allocate f) as [[key|e] f1]; [|done].
  unfold bind at 1. destruct (file_read can_allocate 4 f1) as [[bs|e] f2];
    [|done].
  unfold bind at 1, lift at 1. destruct (unpack_I bs) as [vt|e]; [|done].
  destruct (vt =? GGUFValueType_STRING); [|done].
  unfold bind at 1, _read_value. cbn [N.eqb Pos.eqb GGUFValueType_STRING].
  unfold bind at 1.
  destruct (_read_string can_allocate f2) as [[value|e] f3]; [|done].
  unfold ret at 1. by destruct (str_eqb key general_name).
Qed.

(** X6: when the entry read after [k] others has the key [general.name] and
    a string value, [_read_metadata] returns the mapping accumulated so far
    with that value under [general.name], and leaves the file where the
    value ends: nothing after it is read. *)
Theorem X6_read_metadata_stops_at_general_name
        (blob : list byte) (count : N) (f0 : file) (k : nat) (f : file)
        (metadata : gmap str (option str))
        (f1 : file) (bs : list byte) (f2 : file) (value : str) (f3 : file) :
  _read_header can_allocate (File blob 0 false) = (Ok count, f0) ->
  scanned can_allocate k f0 ∅ f metadata ->
  (k < N.to_nat count)%nat ->
  _read_string can_allocate f = (Ok general_name, f1) ->
  file_read can_allocate 4 f1 = (Ok bs, f2) ->
  unpack_I bs = Ok GGUFValueType_STRING ->
  _read_string can_allocate f2 = (Ok value, f3) ->
  _read_metadata can_allocate (File blob 0 false)
  = (Ok (<[general_name := Some value]> metadata), f3).
Proof.
  intros Hhdr Hscanned Hk Hkey Htag Hvt Hval.
  unfold _read_metadata, bind. rewrite Hhdr.
  replace (N.to_nat count) with (k + S (N.to_nat count - S k))%nat by lia.
  rewrite (scanned_scan _ _ _ _ _ _ Hscanned).
  rewrite scan_step, Hkey, Htag, Hvt, N.eqb_refl, Hval.
  unfold str_eqb. by rewrite bool_decide_eq_true_2.
Qed.

(** X7: when the turns announced by the header have all been made,
    [_read_metadata] returns what they accumulated and leaves the file where
    the last of them stopped. *)
Theorem X7_read_metadata_after_all_entries
        (blob : list byte) (count : N) (f0 f : file)
        (metadata : gmap str (option str)) :
  _read_header can_allocate (File blob 0 false) = (Ok count, f0) ->
  scanned can_allocate (N.to_nat count) f0 ∅ f metadata ->
  _read_metadata can_allocate (File blob 0 false) = (Ok metadata, f).
Proof.
  intros Hhdr Hscanned. unfold _read_metadata, bind. rewrite Hhdr.
  replace (N.to_nat count) with (N.to_nat count + 0)%nat by lia.
  by rewrite (scanned_scan _ _ _ _ _ _ Hscanned).
Qed.

Lemma scan_values (n : nat) (metadata metadata' : gmap str (option str))
      (f f' : file) :
  map_Forall (fun _ value => is_Some value) metadata ->
  scan can_allocate n metadata f = (Ok metadata', f') ->
  map_Forall (fun _ value => is_Some value) metadata'.
Proof.
  revert metadata f. induction n as [|n IH]; intros metadata f Hall.
  - by intros [= <- _].
  - rewrite scan_step.
    destruct (_read_string can_allocate f) as [[key|e] f1]; [|by apply IH].
    destruct (file_read can_allocate 4 f1) as [[bs|e] f2]; [|done].
    destruct (unpack_I bs) as [vt|e]; [|done].
    destruct (vt =? GGUFValueType_STRING); [|by apply IH].
    destruct (_read_string can_allocate f2) as [[value|e] f3]; [|done].
    assert (map_Forall (fun _ v => is_Some v)
                       (<[key := Some value]> metadata)) as Hall'.
    { apply map_Forall_insert_2; [by eexists|done]. }
    destruct (str_eqb key general_name); [by intros [= <- _]|by apply IH].
Qed.

(** X8: every value of the mapping that [_read_metadata] returns is a
    string, never [None]. *)
Theorem X8_read_metadata_values_are_strings
        (f f' : file) (metadata : gmap str (option str)) (key : str)
        (value : option str) :
  _read_metadata can_allocate f = (Ok metadata, f') ->
  metadata !! key = Some value ->
  exists s, value = Some s.
Proof.
  unfold _read_metadata, bind.
  destruct (_read_header can_allocate f) as [[count|e] f0]; [|done].
  intros Hscan Hkey.
  apply (scan_values _ _ _ _ _ (map_Forall_empty _) Hscan key value Hkey).
Qed.

Lemma scan_size (n : nat) (metadata metadata' : gmap str (option str))
      (f f' : file) :
  scan can_allocate n metadata f = (Ok metadata', f') ->
  (size metadata' <= size metadata + n)%nat.
Proof.
  revert metadata f. induction n as [|n IH]; intros metadata f.
  - intros [= <- _]. lia.
  - rewrite scan_step.
    destruct (_read_string can_allocate f) as [[key|e] f1];
      [|intros H; apply IH in H; lia].
    destruct (file_read can_allocate 4 f1) as [[bs|e] f2]; [|done].
    destruct (unpack_I bs) as [vt|e]; [|done].
    destruct (vt =? GGUFValueType_STRING); [|intros H; apply IH in H; lia].
    destruct (_read_string can_allocate f2) as [[value|e] f3]; [|done].
    assert (size (<[key := Some value]> metadata) <= S (size metadata))%nat
      as Hsize.
    { rewrite map_size_insert. destruct (metadata !! key); cbn; lia. }
    destruct (str_eqb key general_name).
    + intros [= <- _]. lia.
    + intros H. apply IH in H. lia.
Qed.

(** X9: the mapping has no more keys than the header announces entries. *)
Theorem X9_read_metadata_at_most_count_entries
        (f f0 f' : file) (count : N) (metadata : gmap str (option str)) :
  _read_header can_allocate f = (Ok count, f0) ->
  _read_metadata can_allocate f = (Ok metadata, f') ->
  (size metadata <= N.to_nat count)%nat.
Proof.
  intros Hhdr. unfold _read_metadata, bind. rewrite Hhdr. intros Hscan.
  apply scan_size in Hscan. by rewrite map_size_empty in Hscan.
Qed.

(** X5: where the file holds a complete length-prefixed field, 8 bytes that
    give the length of the payload and then the payload, [_read_string]
    decodes the payload, as a string or as a [UnicodeDecodeError], and
    leaves the position right behind the field. *)
Theorem X5_read_string_reads_one_field
        (f : file) (prefix payload rest : list byte) :
  remaining f = prefix ++ payload ++ rest ->
  length prefix = 8%nat ->
  le_decode prefix = N.of_nat (length payload) ->
  N.of_nat (length payload) < 2 ^ 63 ->
  can_allocate 8 = true ->
  can_allocate (N.of_nat (length payload)) = true ->
  _read_string can_allocate f
  = (decode payload,
     File (content f) (pos f + 8 + length payload) (closed f)).
Proof. apply read_string_field. Qed.

(** X19: an entry whose type tag is not the one of strings is passed over
    together with its key and its tag, and with nothing else: the next turn
    of the loop reads its key where the value of the entry begins. *)
Theorem X19_value_of_a_non_string_entry_is_not_skipped
        (n : nat) (metadata : gmap str (option str)) (f : file)
        (prefix key_bytes tag rest : list byte) (key : str) :
  remaining f = prefix ++ key_bytes ++ tag ++ rest ->
  length prefix = 8%nat ->
  le_decode prefix = N.of_nat (length key_bytes) ->
  N.of_nat (length key_bytes) < 2 ^ 63 ->
  can_allocate 8 = true ->
  can_allocate (N.of_nat (length key_bytes)) = true ->
  can_allocate 4 = true ->
  decode key_bytes = Ok key ->
  length tag = 4%nat ->
  le_decode tag <> GGUFValueType_STRING ->
  let f' := File (content f) (pos f + 8 + length key_bytes + 4) (closed f) in
  scan can_allocate (S n) metadata f = scan can_allocate n metadata f'
  /\ remaining f' = rest.
Proof.
  intros Hrem Hpre Hlen Hsmall H8 Hkey H4 Hdec Htag Hvt f'.
  assert (remaining (File (content f) (pos f + 8 + length key_bytes) (closed f))
          = tag ++ rest) as Hrem1.
  { unfold remaining in *. cbn [content pos].
    rewrite <- Nat.add_assoc, <- drop_drop, Hrem.
    rewrite (app_assoc prefix), drop_app_length'; [done|].
    rewrite length_app. lia. }
  assert (remaining f' = rest) as Hrem2.
  { unfold f', remaining in *. cbn [content pos] in *.
    by rewrite <- drop_drop, Hrem1, drop_app_length'. }
  split; [|done].
  rewrite scan_step, (read_string_field f prefix key_bytes (tag ++ rest))
    by done.
  rewrite Hdec, file_read_ok by (done || lia).
  change (N.to_nat 4) with 4%nat. rewrite Hrem1, take_app_length' by done.
  unfold unpack_I. rewrite Htag. cbn [Nat.eqb].
  apply N.eqb_neq in Hvt. rewrite Hvt. cbn [content pos closed].
  f_equal. unfold f'. f_equal.
  apply (f_equal length) in Hrem1. unfold remaining in Hrem1.
  cbn [content pos] in Hrem1. rewrite length_drop, length_app in Hrem1. lia.
Qed.

End ReaderMore.

(** *** The read position *)

Lemma forward_refl (f : file) : forward f f.
Proof. by repeat split. Qed.

Lemma forward_trans (f1 f2 f3 : file) :
  forward f1 f2 -> forward f2 f3 -> forward f1 f3.
Proof.
  intros (Hc1 & Hp1 & Hl1) (Hc2 & Hp2 & Hl2). rewrite Hc1 in *.
  repeat split; [congruence|lia|auto].
Qed.

Lemma moves_forward_ret {A} (a : A) : moves_forward (ret a).
Proof. intros f r f' [= _ <-]. apply forward_refl. Qed.

Lemma moves_forward_lift {A} (o : outcome A) : moves_forward (lift o).
Proof. intros f r f' [= _ <-]. apply forward_refl. Qed.

Lemma moves_forward_bind {A B} (m : M A) (k : A -> M B) :
  moves_forward m -> (forall a, moves_forward (k a)) ->
  moves_forward (bind m k).
Proof.
  intros Hm Hk f r f'. unfold bind.
  destruct (m f) as [[a|e] f1] eqn:E; intros H.
  - eapply forward_trans; [eapply Hm, E|eapply Hk, H].
  - injection H as _ <-. eapply Hm, E.
Qed.

Lemma moves_forward_file_read can_allocate n :
  moves_forward (file_read can_allocate n).
Proof.
  intros f r f'. unfold file_read.
  destruct (2 ^ 63 <=? n); [intros [= _ <-]; apply forward_refl|].
  destruct (can_allocate n); cbn [negb];
    [|intros [= _ <-]; apply forward_refl].
  intros [= _ <-]. unfold forward, remaining. cbn [content pos].
  rewrite length_take, length_drop. repeat split; lia.
Qed.

Lemma moves_forward_read_header can_allocate :
  moves_forward (_read_header can_allocate).
Proof.
  unfold _read_header.
  repeat (apply moves_forward_bind; [apply moves_forward_file_read|intros ?]).
  apply moves_forward_lift.
Qed.

Lemma moves_forward_read_string can_allocate :
  moves_forward (_read_string can_allocate).
Proof.
  unfold _read_string.
  apply moves_forward_bind; [apply moves_forward_file_read|intros ?].
  apply moves_forward_bind; [apply moves_forward_lift|intros ?].
  apply moves_forward_bind; [apply moves_forward_file_read|intros ?].
  apply moves_forward_lift.
Qed.

Lemma moves_forward_scan can_allocate n metadata :
  moves_forward (scan can_allocate n metadata).
Proof.
  revert metadata. induction n as [|n IH]; intros metadata;
    [apply moves_forward_ret|].
  intros f r f'. rewrite scan_step.
  destruct (_read_string can_allocate f) as [[key|e] f1] eqn:E1.
  2:{ intros H. eapply forward_trans;
        [eapply moves_forward_read_string, E1|eapply IH, H]. }
  pose proof (moves_forward_read_string _ _ _ _ E1) as H1.
  destruct (file_read can_allocate 4 f1) as [[bs|e] f2] eqn:E2;
    pose proof (moves_forward_file_read _ _ _ _ _ E2) as H2.
  2:{ intros [= _ <-]. by eapply forward_trans. }
  pose proof (forward_trans _ _ _ H1 H2) as H12.
  destruct (unpack_I bs) as [vt|e]; [|by intros [= _ <-]].
  destruct (vt =? GGUFValueType_STRING).
  2:{ intros H. eapply forward_trans; [exact H12|eapply IH, H]. }
  destruct (_read_string can_allocate f2) as [[value|e] f3] eqn:E3;
    pose proof (moves_forward_read_string _ _ _ _ E3) as H3.
  2:{ intros [= _ <-]. by eapply forward_trans. }
  pose proof (forward_trans _ _ _ H12 H3) as H123.
  destruct (str_eqb key general_name); [by intros [= _ <-]|].
  intros H. eapply forward_trans; [exact H123|eapply IH, H].
Qed.

(** X10: however the construction of the reader ends, the file object holds
    the bytes it was opened on and its position is not past their end. *)
Theorem X10_reader_stays_inside_the_file (can_allocate : N -> bool)
        (blob : list byte) (r : outcome (gmap str (option str))) (f : file) :
  GGUFMetadataReader can_allocate (Some blob) = (r, Some f) ->
  content f = blob /\ (pos f <= length blob)%nat.
Proof.
  unfold GGUFMetadataReader, open_rb, bind.
  destruct (_read_metadata can_allocate (File blob 0 false))
    as [[md|e] f1] eqn:E.
  - cbn. intros [= _ <-]. cbn [content pos].
    assert (forward (File blob 0 false) f1) as (Hc & _ & Hl).
    { revert E. unfold _read_metadata. apply moves_forward_bind;
        [apply moves_forward_read_header|intros; apply moves_forward_scan]. }
    cbn [content pos] in *. split; [done|]. apply Hl. lia.
  - intros [= _ <-].
    assert (forward (File blob 0 false) f1) as (Hc & _ & Hl).
    { revert E. unfold _read_metadata. apply moves_forward_bind;
        [apply moves_forward_read_header|intros; apply moves_forward_scan]. }
    cbn [content pos] in *. split; [done|]. apply Hl. lia.
Qed.

(** ** The range of the similarity *)

Local Close Scope N_scope.
Local Open Scope nat_scope.

Section BoundsB.

Variables (a b : str) (b2j : gmap N (list nat)).

Lemma row_loop_bounds_b (blo bhi i : nat) (j2len : gmap nat nat)
      (js : list nat) (newj2len : gmap nat nat) (best : Match) :
  map_Forall (fun j v => v + blo <= S j) j2len ->
  map_Forall (fun j v => v + blo <= S j) newj2len ->
  blo <= m_b best /\ m_b best + m_size best <= bhi ->
  let '(newj2len', best') := row_loop i blo bhi j2len js newj2len best in
  map_Forall (fun j v => v + blo <= S j) newj2len'
  /\ blo <= m_b best' /\ m_b best' + m_size best' <= bhi.
Proof.
  intros Hprev. revert newj2len best.
  induction js as [|j js IH]; intros newj2len best Hnew Hbest;
    cbn [row_loop]; [done|].
  destruct (Nat.ltb_spec j blo) as [_|Hlo]; [by apply IH|].
  destruct (Nat.leb_spec bhi j) as [_|Hhi]; [done|].
  assert (j2len_get j2len j + blo <= j) as Hk.
  { destruct j as [|j']; cbn [j2len_get]; [lia|].
    destruct (j2len !! j') as [v|] eqn:E; cbn; [|lia].
    specialize (Hprev j' v E). cbn in Hprev. lia. }
  apply IH.
  - apply map_Forall_insert_2; [lia|done].
  - destruct (m_size best <? j2len_get j2len j + 1); [|done].
    cbn [m_b m_size]. lia.
Qed.

Lemma rows_bounds_b (blo bhi : nat) (range : list nat) (j2len : gmap nat nat)
      (best : Match) :
  map_Forall (fun j v => v + blo <= S j) j2len ->
  blo <= m_b best /\ m_b best + m_size best <= bhi ->
  let best' := rows a b2j blo bhi range j2len best in
  blo <= m_b best' /\ m_b best' + m_size best' <= bhi.
Proof.
  revert j2len best. induction range as [|i range IH];
    intros j2len best Hprev Hbest; cbn [rows]; [done|].
  match goal with
  | |- context [row_loop i blo bhi j2len ?js ∅ best] =>
      pose proof (row_loop_bounds_b blo bhi i j2len js ∅ best Hprev
                    (map_Forall_empty _) Hbest) as Hrow;
        destruct (row_loop i blo bhi j2len js ∅ best) as [newj2len best']
  end.
  destruct Hrow as [Hnew Hbest']. by apply IH.
Qed.

Lemma extend_left_bounds_b (alo blo : nat) (want_junk : bool)
      (besti bestj bestsize : nat) :
  blo <= bestj ->
  let m := extend_left a b alo blo want_junk besti bestj bestsize in
  blo <= m_b m /\ m_b m + m_size m = bestj + bestsize.
Proof.
  revert bestj bestsize. induction besti as [|i IH]; intros bestj bestsize Hle.
  - cbn. lia.
  - cbn [extend_left]. destruct bestj as [|j]; [cbn; lia|].
    destruct (_ && _) eqn:E; [|cbn; lia].
    assert (blo <= j) as Hj.
    { apply andb_prop in E as [E _]. apply andb_prop in E as [E _].
      apply andb_prop in E as [_ E]. apply Nat.ltb_lt in E. lia. }
    destruct (IH j (S bestsize) Hj) as [? ?]. split; [done|lia].
Qed.

Lemma extend_right_bounds_b (ahi bhi : nat) (want_junk : bool)
      (fuel besti bestj bestsize : nat) :
  bestj + bestsize <= bhi ->
  let m := extend_right a b ahi bhi want_junk fuel besti bestj bestsize in
  m_b m = bestj /\ m_b m + m_size m <= bhi.
Proof.
  revert bestsize. induction fuel as [|fuel IH]; intros bestsize Hle;
    cbn [extend_right]; [cbn; lia|].
  destruct (_ && _) eqn:E; [|cbn; lia].
  apply IH.
  apply andb_prop in E as [E _]. apply andb_prop in E as [E _].
  apply andb_prop in E as [_ E]. apply Nat.ltb_lt in E. lia.
Qed.

Lemma extend_bounds_b (alo ahi blo bhi : nat) (want_junk : bool) (m : Match) :
  blo <= m_b m -> m_b m + m_size m <= bhi ->
  let m' := extend a b alo ahi blo bhi want_junk m in
  blo <= m_b m' /\ m_b m' + m_size m' <= bhi.
Proof.
  intros Hlo Hhi. unfold extend.
  destruct (extend_left_bounds_b alo blo want_junk (m_a m) (m_b m) (m_size m) Hlo)
    as [Hlo' Heq].
  match goal with
  | |- context [extend_right a b ahi bhi want_junk ?f ?i ?j ?k] =>
      destruct (extend_right_bounds_b ahi bhi want_junk f i j k) as [E ?];
        [lia|]
  end.
  cbn zeta. split; [|done]. by rewrite E.
Qed.

(** The block lies inside the range of [b] it was searched in. *)
Lemma find_longest_match_bounds_b (alo ahi blo bhi : nat) :
  blo <= bhi ->
  let x := find_longest_match a b b2j alo ahi blo bhi in
  blo <= m_b x /\ m_b x + m_size x <= bhi.
Proof.
  intros Hle. unfold find_longest_match.
  pose proof (rows_bounds_b blo bhi (seq alo (ahi - alo)) ∅ (mkMatch alo blo 0))
    as Hrows.
  destruct Hrows as [H1 H2]; [apply map_Forall_empty|cbn; lia|].
  destruct (extend_bounds_b alo ahi blo bhi false _ H1 H2) as [H3 H4].
  by apply extend_bounds_b.
Qed.

(** What is matched fits into the ranges still to look at, in [a] and in
    [b]. *)
Lemma blocks_loop_total (fuel : nat) (queue : list (nat * nat * nat * nat))
      (matching_blocks : list Match) :
  Forall (fun '(alo, ahi, blo, bhi) => alo <= ahi /\ blo <= bhi) queue ->
  let found := fst (blocks_loop fuel a b b2j queue matching_blocks) in
  sum_sizes found <= sum_sizes matching_blocks + span_a queue
  /\ sum_sizes found <= sum_sizes matching_blocks + span_b queue.
Proof.
  revert queue matching_blocks.
  induction fuel as [|fuel IH]; intros queue blocks Hq; cbv zeta;
    [cbn [blocks_loop fst]; lia|].
  destruct queue as [|[[[alo ahi] blo] bhi] queue];
    [cbn [blocks_loop fst]; lia|].
  cbn [blocks_loop]. inversion_clear Hq as [|? ? Hhead Hq'].
  cbn in Hhead. destruct Hhead as [Hle Hle'].
  destruct (find_longest_match_bounds a b b2j alo ahi blo bhi Hle) as [Hlo Hhi].
  destruct (find_longest_match_bounds_b alo ahi blo bhi Hle') as [Hlo' Hhi'].
  set (x := find_longest_match a b b2j alo ahi blo bhi) in *.
  cbv zeta. cbn iota beta.
  cbn [span_a span_b foldr]. fold (span_a queue) (span_b queue).
  destruct (Nat.eqb_spec (m_size x) 0) as [_|Hk].
  { specialize (IH queue blocks Hq'). cbn zeta in IH. lia. }
  match goal with
  | |- context [blocks_loop fuel a b b2j ?q ?acc] =>
      specialize (IH q acc); cbn zeta in IH;
        assert (span_a q + m_size x <= ahi - alo + span_a queue
                /\ span_b q + m_size x <= bhi - blo + span_b queue) as Hspan
  end.
  { destruct (Nat.ltb_spec alo (m_a x)), (Nat.ltb_spec blo (m_b x)),
      (Nat.ltb_spec (m_a x + m_size x) ahi),
      (Nat.ltb_spec (m_b x + m_size x) bhi); cbn [andb];
      cbn [span_a span_b foldr]; fold (span_a queue) (span_b queue); lia. }
  rewrite sum_sizes_app, sum_sizes_cons in IH. change (sum_sizes []) with 0 in IH.
  destruct IH as [IH1 IH2]; [|lia].
  destruct (Nat.ltb_spec alo (m_a x)), (Nat.ltb_spec blo (m_b x)),
    (Nat.ltb_spec (m_a x + m_size x) ahi),
    (Nat.ltb_spec (m_b x + m_size x) bhi); cbn [andb];
    repeat constructor; try done; lia.
Qed.

End BoundsB.

(** No more is matched than either string has. *)
Lemma raw_blocks_total (a b : str) :
  sum_sizes (raw_blocks a b) <= length a
  /\ sum_sizes (raw_blocks a b) <= length b.
Proof.
  unfold raw_blocks.
  pose proof (blocks_loop_total a b (chain_b b) (2 * length a + 1)
                [(0, length a, 0, length b)] []) as H.
  destruct H as [Ha Hb]; [repeat constructor; lia|].
  cbn [span_a span_b foldr] in *. change (sum_sizes []) with 0 in *. lia.
Qed.

Lemma calculate_ratio_range (matches la lb : nat) :
  matches <= la -> matches <= lb ->
  (0 <= _calculate_ratio matches (la + lb) <= 1)%Q.
Proof.
  intros Ha Hb. unfold _calculate_ratio.
  destruct (la + lb) as [|m] eqn:E; [split; discriminate|].
  unfold Qle. cbn [Qnum Qden]. rewrite !Z.mul_1_r, Z.mul_1_l.
  rewrite <- E, <- positive_nat_Z, Nat2Pos.id by lia. lia.
Qed.

(** X11: a similarity lies between 0 and 1. *)
Theorem X11_similarity_between_0_and_1 (str1 str2 : str) :
  (0 <= _get_similarity str1 str2 <= 1)%Q.
Proof.
  destruct str1 as [|x s1]; [split; discriminate|].
  destruct str2 as [|y s2]; [split; discriminate|].
  cbn [_get_similarity]. rewrite ratio_raw_blocks.
  destruct (raw_blocks_total (x :: s1) (y :: s2)).
  by apply calculate_ratio_range.
Qed.

(** ** More about the selection *)

Local Close Scope nat_scope.
Local Open Scope N_scope.

(** The score kept is at least the start value and at least every score
    seen. *)
Lemma keep_best_ge (pairs : list (str * Q)) (init : option str * Q) :
  (snd init <= snd (fold_left keep_best pairs init))%Q
  /\ Forall (fun p => (snd p <= snd (fold_left keep_best pairs init))%Q) pairs.
Proof.
  revert init. induction pairs as [|p pairs IH]; intros init.
  - split; [apply Qle_refl|constructor].
  - cbn [fold_left]. destruct (IH (keep_best init p)) as [Hinit Hall].
    assert ((snd init <= snd (keep_best init p))%Q
            /\ (snd p <= snd (keep_best init p))%Q) as [H1 H2].
    { unfold keep_best. destruct (Qltb (snd init) (snd p)) eqn:E; cbn [snd].
      - apply Qltb_lt in E. split; [by apply Qlt_le_weak|apply Qle_refl].
      - apply Qltb_ge in E. split; [apply Qle_refl|done]. }
    split; [by eapply Qle_trans|].
    constructor; [by eapply Qle_trans|done].
Qed.

Lemma scored_pairs_intro (horde_models : list (str * model_data))
      (normalized_identifiers : list str) (model_id : str) (data : model_data)
      (name norm_id : str) :
  (model_id, data) ∈ horde_models ->
  model_name data = Some name ->
  _normalize name <> [] ->
  norm_id ∈ normalized_identifiers ->
  (name, boosted_score norm_id (_normalize name))
    ∈ scored_pairs horde_models normalized_identifiers.
Proof.
  intros Hin Hname Hnorm Hid. unfold scored_pairs.
  rewrite list_elem_of_In, in_flat_map. exists (model_id, data).
  split; [by apply list_elem_of_In|]. cbn [snd]. rewrite Hname. cbn.
  destruct (_normalize name) as [|c n]; [done|].
  apply in_map_iff. exists norm_id. split; [done|by apply list_elem_of_In].
Qed.

Lemma boosted_score_contained (norm_id norm_name : str) :
  str_in norm_id norm_name || str_in norm_name norm_id = true ->
  (7 # 10 <= boosted_score norm_id norm_name)%Q.
Proof.
  intros H. unfold boosted_score. rewrite H. unfold max_with.
  destruct (Qltb _ _) eqn:E; [apply Qle_refl|by apply Qltb_ge in E].
Qed.

(** X12: when the normal form of an identifier is contained in the normal
    form of the name of a catalog entry, or contains it, the answer is not
    the empty string: it is the name of some entry of the catalog. *)
Theorem X12_contained_identifier_gets_an_answer
        (horde_models : list (str * model_data))
        (normalized_identifiers : list str)
        (model_id : str) (data : model_data) (name norm_id : str) :
  (model_id, data) ∈ horde_models ->
  model_name data = Some name ->
  _normalize name <> [] ->
  norm_id ∈ normalized_identifiers ->
  str_in norm_id (_normalize name) || str_in (_normalize name) norm_id = true ->
  exists answer model_id' data',
    best_display_name horde_models normalized_identifiers = Some answer
    /\ answer <> []
    /\ (model_id', data') ∈ horde_models
    /\ model_name data' = Some answer.
Proof.
  intros Hin Hname Hnorm Hid Hcontained.
  pose proof (scored_pairs_intro _ _ _ _ _ _ Hin Hname Hnorm Hid) as Hpair.
  pose proof (boosted_score_contained _ _ Hcontained) as Hscore.
  unfold best_display_name. rewrite select_scored_pairs.
  destruct (keep_best_ge (scored_pairs horde_models normalized_identifiers)
                         (None, 0%Q)) as [_ Hall].
  rewrite Forall_forall in Hall. specialize (Hall _ Hpair). cbn [snd] in Hall.
  assert ((7 # 10 <= snd (fold_left keep_best
            (scored_pairs horde_models normalized_identifiers) (None, 0%Q)))%Q)
    as Hbest by (by eapply Qle_trans).
  destruct (keep_best_origin
              (scored_pairs horde_models normalized_identifiers) (None, 0%Q))
    as [E|(p & Hp & E)]; rewrite E in Hbest |- *.
  - cbn [snd] in Hbest. by vm_compute in Hbest.
  - cbn [snd] in Hbest.
    assert (Qle_bool (1 # 2) (snd p) = true) as ->.
    { apply Qle_bool_iff. eapply Qle_trans; [|exact Hbest]. by vm_compute. }
    destruct (scored_pairs_from_catalog _ _ _ Hp)
      as (model_id' & data' & Hin' & Hname' & Hnorm').
    exists (fst p), model_id', data'. repeat split; try done.
    intros Hempty. by rewrite Hempty in Hnorm'.
Qed.

Lemma scored_pairs_filter (horde_models : list (str * model_data))
      (normalized_identifiers : list str) :
  scored_pairs (List.filter has_normal_form horde_models)
               normalized_identifiers
  = scored_pairs horde_models normalized_identifiers.
Proof.
  unfold scored_pairs. induction horde_models as [|entry cat IH]; [done|].
  cbn [List.filter flat_map]. unfold has_normal_form at 1.
  destruct (_normalize (default [] (model_name entry.2))) as [|c n] eqn:E.
  - by rewrite IH.
  - cbn [flat_map]. by rewrite E, IH.
Qed.

(** X13: the entries without a name, or whose name has an empty normal
    form, can be taken out of the catalog without changing the answer. *)
Theorem X13_entries_without_normal_form_do_not_count
        (horde_models : list (str * model_data))
        (normalized_identifiers : list str) :
  best_display_name (List.filter has_normal_form horde_models)
                    normalized_identifiers
  = best_display_name horde_models normalized_identifiers.
Proof.
  unfold best_display_name. by rewrite !select_scored_pairs, scored_pairs_filter.
Qed.

Lemma scored_pairs_no_identifier (horde_models : list (str * model_data)) :
  scored_pairs horde_models [] = [].
Proof.
  unfold scored_pairs. induction horde_models as [|entry cat IH]; [done|].
  cbn [flat_map]. rewrite IH. by destruct (_normalize _).
Qed.

Lemma scored_pairs_no_entry (horde_models : list (str * model_data))
      (normalized_identifiers : list str) :
  Forall (fun entry => has_normal_form entry = false) horde_models ->
  scored_pairs horde_models normalized_identifiers = [].
Proof.
  unfold scored_pairs. induction 1 as [|entry cat Hentry _ IH]; [done|].
  cbn [flat_map]. rewrite IH. unfold has_normal_form in Hentry.
  by destruct (_normalize _).
Qed.

(** X14: without an identifier, or with a catalog none of whose entries has
    a name with a normal form (an empty catalog, for one), the answer is the
    empty string. *)
Theorem X14_nothing_to_compare_gives_the_empty_string
        (horde_models : list (str * model_data))
        (normalized_identifiers : list str) :
  normalized_identifiers = []
  \/ Forall (fun entry => has_normal_form entry = false) horde_models ->
  best_display_name horde_models normalized_identifiers = Some [].
Proof.
  intros H. unfold best_display_name. rewrite select_scored_pairs.
  destruct H as [->|H].
  - by rewrite scored_pairs_no_identifier.
  - by rewrite scored_pairs_no_entry.
Qed.

(** ** More about [get_model_name] *)

Section NameFromMetadata.

Variables can_allocate unicode_Nd : N -> bool.

Lemma get_model_name_with_general_name
      (gguf_path : str) (on_disk : option (list byte))
      (horde_models : list (str * model_data))
      (metadata : gmap str (option str)) (value : option str) :
  fst (GGUFMetadataReader can_allocate on_disk) = Ok metadata ->
  metadata !! general_name = Some value ->
  get_model_name can_allocate unicode_Nd gguf_path on_disk horde_models
  = Ok (best_display_name horde_models
          (if truthy value then [_normalize (default [] value)] else [])).
Proof.
  intros Hread Hname. unfold get_model_name, get_model_name_body.
  rewrite Hread, Hname. cbn [length Nat.eqb List.filter].
  by destruct (truthy value).
Qed.

(** X15: when the file carries a [general.name] entry, the answer does not
    depend on the name of the file. *)
Theorem X15_general_name_overrides_the_file_name
        (gguf_path gguf_path' : str) (on_disk : option (list byte))
        (horde_models : list (str * model_data))
        (metadata : gmap str (option str)) (value : option str) :
  fst (GGUFMetadataReader can_allocate on_disk) = Ok metadata ->
  metadata !! general_name = Some value ->
  get_model_name can_allocate unicode_Nd gguf_path on_disk horde_models
  = get_model_name can_allocate unicode_Nd gguf_path' on_disk horde_models.
Proof.
  intros Hread Hname.
  by rewrite !(get_model_name_with_general_name _ _ _ _ _ Hread Hname).
Qed.

(** X16: a [general.name] entry whose value is the empty string gives the
    empty answer: the name of the file is not looked at. *)
Theorem X16_empty_general_name_gives_the_empty_string
        (gguf_path : str) (on_disk : option (list byte))
        (horde_models : list (str * model_data))
        (metadata : gmap str (option str)) :
  fst (GGUFMetadataReader can_allocate on_disk) = Ok metadata ->
  metadata !! general_name = Some (Some []) ->
  get_model_name can_allocate unicode_Nd gguf_path on_disk horde_models
  = Ok (Some []).
Proof.
  intros Hread Hname.
  rewrite (get_model_name_with_general_name _ _ _ _ _ Hread Hname).
  cbn [truthy]. unfold best_display_name.
  by rewrite select_scored_pairs, scored_pairs_no_identifier.
Qed.

End NameFromMetadata.

(** ** More about the fallback identifier *)

Lemma basename_from_spec (p seg mid : str) :
  seg = mid ++ p -> Forall (fun c => c <> 47) mid ->
  exists dir,
    seg = dir ++ basename_from p seg
    /\ Forall (fun c => c <> 47) (basename_from p seg)
    /\ (dir = [] \/ exists d, dir = d ++ [47]).
Proof.
  revert seg mid. induction p as [|c p IH]; intros seg mid Hseg Hmid.
  - cbn [basename_from]. exists []. rewrite app_nil_r in Hseg. subst seg.
    split; [done|]. split; [done|by left].
  - cbn [basename_from]. destruct (N.eqb_spec c 47) as [->|Hc].
    + destruct (IH p [] eq_refl (Forall_nil_2 _)) as (dir & Hp & Hno & Hdir).
      exists (mid ++ 47 :: dir). rewrite Hseg. split; [|split; [done|]].
      * rewrite <- app_assoc. cbn [app]. by rewrite <- Hp.
      * right. destruct Hdir as [->|[d ->]].
        -- exists mid. done.
        -- exists (mid ++ 47 :: d). by rewrite <- app_assoc.
    + apply (IH seg (mid ++ [c])).
      * by rewrite <- app_assoc.
      * apply Forall_app_2; [done|by constructor].
Qed.

Lemma basename_spec (path : str) :
  exists dir,
    path = dir ++ basename path
    /\ Forall (fun c => c <> 47) (basename path)
    /\ (dir = [] \/ exists d, dir = d ++ [47]).
Proof. apply (basename_from_spec path path []); [done|constructor]. Qed.

Lemma sub_scan_sublist (r : regex) (s : str) (skip : nat) :
  sub_scan r s skip `sublist_of` s.
Proof.
  revert skip. induction s as [|c s IH]; intros skip;
    cbn [sub_scan]; [constructor|].
  destruct skip as [|n]; [|by apply sublist_cons].
  destruct (rmatch r (c :: s) Some); [by apply sublist_cons|].
  by apply sublist_skip.
Qed.

Section FallbackMore.

Variable unicode_Nd : N -> bool.

(** X17: the fallback identifier is made of characters of the path, in
    their order, and of none that stands before the last slash: the two
    substitutions only delete. *)
Theorem X17_fallback_identifier_only_deletes (gguf_path : str) :
  fallback_identifier unicode_Nd gguf_path `sublist_of` basename gguf_path
  /\ fallback_identifier unicode_Nd gguf_path `sublist_of` gguf_path
  /\ Forall (fun c => c <> 47) (fallback_identifier unicode_Nd gguf_path).
Proof.
  assert (fallback_identifier unicode_Nd gguf_path
            `sublist_of` basename gguf_path) as Hsub.
  { unfold fallback_identifier, re_sub_delete. etrans; apply sub_scan_sublist. }
  destruct (basename_spec gguf_path) as (dir & Hpath & Hno & _).
  split; [done|]. split.
  - rewrite Hpath at 2. by apply sublist_inserts_l.
  - apply Forall_forall. intros c Hc. rewrite Forall_forall in Hno.
    apply Hno. by eapply elem_of_sublist.
Qed.

Lemma sub_scan_no_match (r : regex) (s : str) :
  (forall v w, s = v ++ w -> w <> [] -> rmatch r w Some = None) ->
  sub_scan r s 0 = s.
Proof.
  intros H. rewrite <- (app_nil_r s) at 1.
  rewrite sub_scan_keep; [by rewrite app_nil_r|].
  intros v w Hs Hw. rewrite app_nil_r. by apply (H v).
Qed.

Lemma gguf_extension_needs_dot (c : N) (u : str) :
  c <> 46 -> rmatch gguf_extension (c :: u) Some = None.
Proof. intros Hc. apply N.eqb_neq in Hc. cbn. by rewrite Hc. Qed.

Lemma quant_suffix_needs_Q (w : str) :
  w <> [] -> Forall (fun c => c <> 81) w ->
  rmatch (quant_suffix unicode_Nd) w Some = None.
Proof.
  intros Hw Hall. destruct w as [|c [|d u]]; [done| |].
  - inversion_clear Hall as [|? ? Hc _]. apply N.eqb_neq in Hc. cbn.
    rewrite Hc. by destruct (_ || _).
  - inversion_clear Hall as [|? ? Hc Hall']. inversion_clear Hall' as [|? ? Hd _].
    by apply quant_suffix_no_match_without_Q.
Qed.

(** X18: a base name with no dot and no [Q] is its own fallback
    identifier. *)
Theorem X18_fallback_identifier_of_a_plain_name (gguf_path : str) :
  Forall (fun c => c <> 46 /\ c <> 81) (basename gguf_path) ->
  fallback_identifier unicode_Nd gguf_path = basename gguf_path.
Proof.
  intros H. unfold fallback_identifier, re_sub_delete.
  rewrite (sub_scan_no_match gguf_extension).
  - apply sub_scan_no_match. intros v w Hs Hw.
    rewrite Hs in H. apply Forall_app in H as [_ H].
    apply quant_suffix_needs_Q; [done|].
    eapply Forall_impl; [exact H|]. by intros c [_ ?].
  - intros v w Hs Hw. rewrite Hs in H. apply Forall_app in H as [_ H].
    destruct w as [|c u]; [done|]. inversion_clear H as [|? ? [Hc _] _].
    by apply gguf_extension_needs_dot.
Qed.

End FallbackMore.

(** ** main *)


(** Two runs of [main] on a file without metadata, standard output encoding
    to UTF-8. A name that UTF-8 encodes is printed; a name with a lone
    surrogate is selected as well, and [print] raises. *)
Example main_on_two_catalogs :
  let argv := [py "find_hordename.py"; py "mistral-7b-instruct.Q4_K_M.gguf";
               py "models.json"] in
  main enough_memory ascii_digits_only
       (fun _ => Some (gguf_header 0)) (fun _ => Some mistral_catalog)
       utf8_stdout argv
  = Printed (py "Mistral 7B Instruct" ++ [10])
  /\ main enough_memory ascii_digits_only
          (fun _ => Some (gguf_header 0))
          (fun _ => Some [(py "id1",
                           ModelData (Some (py "Mistral 7B Instruct"
                                            ++ [0xD800])))])
          utf8_stdout argv
     = MainUnicodeEncodeError [].
Proof. vm_compute. split; reflexivity. Qed.

(** ** Instances *)

Lemma X5_read_string_reads_one_field_witness :
  _read_string enough_memory (File (string_entry "k" "v") 0 false)
  = (Ok (py "k"), File (string_entry "k" "v") 9 false).
Proof.
  apply (X5_read_string_reads_one_field enough_memory
           (File (string_entry "k" "v") 0 false)
           (le_bytes 8 1) (bytes_of "k")
           (le_bytes 4 8 ++ le_bytes 8 1 ++ bytes_of "v"));
    reflexivity.
Defined.

Lemma X6_read_metadata_stops_at_general_name_witness :
  _read_metadata enough_memory (File named_blob 0 false)
  = (Ok (<[general_name := Some (py "Mistral-7B-Instruct")]>
           {[ py "general.architecture" := Some (py "llama") ]}),
     File named_blob 120 false).
Proof.
  apply (X6_read_metadata_stops_at_general_name enough_memory named_blob 2
           (File named_blob 24 false) 1 (File named_blob 69 false) _
           (File named_blob 89 false) (le_bytes 4 8)
           (File named_blob 93 false)).
  - reflexivity.
  - eapply (scanned_string _ 0 _ _ (py "general.architecture")
              (File named_blob 52 false) (le_bytes 4 8)
              (File named_blob 56 false) (Some (py "llama")));
      [reflexivity|reflexivity|reflexivity|reflexivity|discriminate|].
    apply scanned_none.
  - vm_compute. lia.
  - reflexivity.
  - reflexivity.
  - reflexivity.
  - reflexivity.
Defined.

Lemma X7_read_metadata_after_all_entries_witness :
  let blob := gguf_header 1 ++ string_entry "k" "v" ++ bytes_of "tail" in
  _read_metadata enough_memory (File blob 0 false)
  = (Ok {[ py "k" := Some (py "v") ]}, File blob 46 false).
Proof.
  intros blob.
  apply (X7_read_metadata_after_all_entries enough_memory blob 1
           (File blob 24 false)).
  - reflexivity.
  - eapply (scanned_string _ 0 _ _ (py "k") (File blob 33 false)
              (le_bytes 4 8) (File blob 37 false) (Some (py "v")));
      [reflexivity|reflexivity|reflexivity|reflexivity|discriminate|].
    apply scanned_none.
Defined.

Lemma X8_read_metadata_values_are_strings_witness :
  exists s, Some (py "llama") = Some s.
Proof.
  apply (X8_read_metadata_values_are_strings enough_memory
           (File named_blob 0 false) (File named_blob 120 false)
           (<[general_name := Some (py "Mistral-7B-Instruct")]>
              {[ py "general.architecture" := Some (py "llama") ]})
           (py "general.architecture")).
  - reflexivity.
  - reflexivity.
Defined.

Lemma X9_read_metadata_at_most_count_entries_witness :
  (size (<[general_name := Some (py "Mistral-7B-Instruct")]>
           ({[ py "general.architecture" := Some (py "llama") ]}
            : gmap str (option str))) <= N.to_nat 2)%nat.
Proof.
  apply (X9_read_metadata_at_most_count_entries enough_memory
           (File named_blob 0 false) (File named_blob 24 false)
           (File named_blob 120 false)); reflexivity.
Defined.

Lemma X10_reader_stays_inside_the_file_witness :
  content (File (bytes_of "GGUF") 4 false) = bytes_of "GGUF"
  /\ (pos (File (bytes_of "GGUF") 4 false) <= length (bytes_of "GGUF"))%nat.
Proof.
  apply (X10_reader_stays_inside_the_file enough_memory (bytes_of "GGUF")
           (Raise StructError)).
  reflexivity.
Defined.

Lemma X12_contained_identifier_gets_an_answer_witness :
  exists answer model_id' data',
    best_display_name [(py "id", ModelData (Some (py "llama2-chat-hf")))]
                      [py "llama2"] = Some answer
    /\ answer <> []
    /\ (model_id', data') ∈ [(py "id", ModelData (Some (py "llama2-chat-hf")))]
    /\ model_name data' = Some answer.
Proof.
  apply (X12_contained_identifier_gets_an_answer _ _ (py "id")
           (ModelData (Some (py "llama2-chat-hf"))) (py "llama2-chat-hf")
           (py "llama2")).
  - apply list_elem_of_here.
  - reflexivity.
  - discriminate.
  - apply list_elem_of_here.
  - reflexivity.
Defined.

Lemma X14_nothing_to_compare_gives_the_empty_string_witness :
  best_display_name mistral_catalog [] = Some []
  /\ best_display_name [(py "a", ModelData None);
                        (py "b", ModelData (Some (py "?!")))]
                       [py "llama2"] = Some [].
Proof.
  split; apply X14_nothing_to_compare_gives_the_empty_string.
  - left. reflexivity.
  - right. repeat constructor.
Defined.

Lemma X15_general_name_overrides_the_file_name_witness :
  get_model_name enough_memory ascii_digits_only (py "/models/a.gguf")
                 (Some named_blob) mistral_catalog
  = get_model_name enough_memory ascii_digits_only (py "llama-2-7b-Q4_K_M.gguf")
                   (Some named_blob) mistral_catalog.
Proof.
  apply (X15_general_name_overrides_the_file_name enough_memory
           ascii_digits_only _ _ (Some named_blob) mistral_catalog
           (<[general_name := Some (py "Mistral-7B-Instruct")]>
              {[ py "general.architecture" := Some (py "llama") ]})
           (Some (py "Mistral-7B-Instruct"))).
  - reflexivity.
  - reflexivity.
Defined.

Lemma X16_empty_general_name_gives_the_empty_string_witness :
  get_model_name enough_memory ascii_digits_only (py "mistral-7b-instruct.gguf")
                 (Some (gguf_header 1 ++ string_entry "general.name" ""))
                 mistral_catalog
  = Ok (Some []).
Proof.
  apply (X16_empty_general_name_gives_the_empty_string enough_memory
           ascii_digits_only _ _ mistral_catalog
           {[ general_name := Some [] ]}).
  - reflexivity.
  - reflexivity.
Defined.

Lemma X18_fallback_identifier_of_a_plain_name_witness :
  fallback_identifier ascii_digits_only (py "/models/llama-2-7b")
  = py "llama-2-7b".
Proof.
  apply (X18_fallback_identifier_of_a_plain_name ascii_digits_only
           (py "/models/llama-2-7b")).
  vm_compute. repeat constructor; discriminate.
Defined.

Lemma X19_value_of_a_non_string_entry_is_not_skipped_witness :
  scan enough_memory 2 ∅ (File mixed_blob 24 false)
  = scan enough_memory 1 ∅ (File mixed_blob 37 false)
  /\ remaining (File mixed_blob 37 false)
     = le_bytes 4 7 ++ string_entry "k" "v".
Proof.
  apply (X19_value_of_a_non_string_entry_is_not_skipped enough_memory 1 ∅
           (File mixed_blob 24 false) (le_bytes 8 1) (bytes_of "n")
           (le_bytes 4 4) (le_bytes 4 7 ++ string_entry "k" "v") (py "n"));
    try reflexivity.
  discriminate.
Defined.

